(** * gelfie: a GELF client over UDP and TCP

    A shallow embedding of [lib/udp.js], [lib/tcp.js] and [lib/index.js],
    and the properties of the chunking protocol, of the backlog and of
    the life cycle of the transports and of the client.

    Layout:
    - [JS]       the fragment of JavaScript and Node.js the code relies
                 on: values, exceptions, [Buffer], and the host functions
                 that the library calls and does not define;
    - [Udp]      [UdpTransport]: constructor, connect, close, send, _send
                 and the completion callback of a write;
    - [Tcp]      [TcpTransport]: constructor, connect, close, send and
                 the handler of ['drain'];
    - [Gelf]     [GelfClient]: constructor, connect, close and the log
                 functions;
    - [Fixture]  the transports and messages of test/index.js and of the
                 README;
    - [UdpTheory], [TcpTheory], [GelfTheory]: the lemmas and theorems. *)

From Stdlib Require Import ZArith Lia QArith_base Strings.Byte.
From stdpp Require Import base list strings.

Set Warnings "-register-all".
Local Open Scope Z_scope.

(* ===================================================================== *)
(** ** JavaScript and Node.js                                             *)
(* ===================================================================== *)

Module JS.

(** Numbers. The code only asks of a number whether it is a safe
    integer, whether it is finite and how an integer compares with a
    constant, so a finite number that is not an integer keeps its value
    as a rational. *)
Inductive number :=
| Int (z : Z)
| Frac (q : Q)
| NaN
| Infinity (negative : bool).

(** Values. An object is the list of its own enumerable properties in
    insertion order, the order [Object.keys] enumerates them in. *)
Inductive value :=
| Undefined
| Null
| Bool (b : bool)
| Number (n : number)
| String (s : string)
| NativeError (name message stack : string)
| Object (props : list (string * value)).

Inductive exn :=
| TypeError (message : string)
| RangeError (message : string)
| Error (message : string).

(** The outcome of running a piece of code: it completes normally or it
    throws. *)
Inductive completion (A : Type) :=
| Normal (a : A)
| Throw (e : exn).
Arguments Normal {A} a.
Arguments Throw {A} e.

Definition bind {A B} (c : completion A) (k : A -> completion B) : completion B :=
  match c with
  | Normal a => k a
  | Throw e => Throw e
  end.

Definition typeof (v : value) : string :=
  match v with
  | Undefined => "undefined"
  | Null => "object"
  | Bool _ => "boolean"
  | Number _ => "number"
  | String _ => "string"
  | NativeError _ _ _ => "object"
  | Object _ => "object"
  end.

Definition isNull (v : value) : bool :=
  match v with Null => true | _ => false end.

(** [Number.isSafeInteger]. *)
Definition isSafeInteger (v : value) : bool :=
  match v with
  | Number (Int z) => (Z.abs z <=? 2 ^ 53 - 1)
  | _ => false
  end.

(** [Number.isFinite]. *)
Definition isFinite (v : value) : bool :=
  match v with
  | Number (Int _) | Number (Frac _) => true
  | _ => false
  end.

(** [x <= k] and [x < k] of a number and an integer constant. *)
Definition number_leb (n : number) (k : Z) : bool :=
  match n with
  | Int z => (z <=? k)
  | Frac q => (Qnum q <=? k * Zpos (Qden q))
  | NaN => false
  | Infinity negative => negative
  end.

Definition number_ltb (n : number) (k : Z) : bool :=
  match n with
  | Int z => (z <? k)
  | Frac q => (Qnum q <? k * Zpos (Qden q))
  | NaN => false
  | Infinity negative => negative
  end.

(** Property access [o.k]; a missing property reads as [undefined]. *)
Fixpoint get (props : list (string * value)) (k : string) : value :=
  match props with
  | [] => Undefined
  | (k', v) :: rest => if String.eqb k' k then v else get rest k
  end.

(** A destructuring pattern [{ k = d } = o]: the default replaces
    [undefined] only. *)
Definition get_default (props : list (string * value)) (k : string) (d : value) : value :=
  match get props k with
  | Undefined => d
  | v => v
  end.

(** Assignment [o[k] = v]: an existing property keeps its place, a new
    one comes last. *)
Fixpoint set (props : list (string * value)) (k : string) (v : value)
  : list (string * value) :=
  match props with
  | [] => [(k, v)]
  | (k', v') :: rest =>
    if String.eqb k' k then (k', v) :: rest else (k', v') :: set rest k v
  end.

(** The own enumerable properties of a value of type ['object'] that is
    not [null]; those of an error ([name], [message] and [stack]) are
    not enumerable. *)
Definition own_props (v : value) : list (string * value) :=
  match v with
  | Object props => props
  | _ => []
  end.

(** [Object.keys]. *)
Definition Object_keys (v : value) : list string := (own_props v).*1.

(** [Math.ceil(a / b)] on integers with [0 < b]. The quotient of two
    safe integers is rounded correctly, and correct rounding never
    crosses the next integer, so the result is the integer ceiling. *)
Definition Math_ceil_div (a b : Z) : Z := - ((- a) / b).

(** *** Buffers *)

Abbreviation Buffer := (list byte).

(** [ToUint8]: what a store into a [Uint8Array] keeps of an integer. *)
Definition ToUint8 (z : Z) : byte :=
  match Byte.of_N (Z.to_N (z mod 256)) with
  | Some b => b
  | None => x00
  end.

(** [buf[i] = v]. A store past the end of a typed array is ignored. *)
Definition Buffer_set (i : nat) (v : Z) (buf : Buffer) : Buffer :=
  <[i := ToUint8 v]> buf.

(** [Buffer.from(string)]: the UTF-8 bytes of the string; a [string]
    here is the sequence of those bytes. *)
Definition Buffer_from (s : string) : Buffer := String.list_byte_of_string s.

Definition byteLength (b : Buffer) : Z := Z.of_nat (length b).

(** [source.copy(target, targetStart, sourceStart, sourceEnd)], as in
    Node's [lib/buffer.js]: negative positions and a [sourceStart] past
    the source are range errors, and the copy is cut to what the target
    has room for and to what the source holds. *)
Definition Buffer_copy (source target : Buffer)
           (targetStart sourceStart sourceEnd : Z) : completion Buffer :=
  if targetStart <? 0 then Throw (RangeError "targetStart is out of range")
  else if sourceStart <? 0 then Throw (RangeError "sourceStart is out of range")
  else if sourceEnd <? 0 then Throw (RangeError "sourceEnd is out of range")
  else if (byteLength target <=? targetStart) || (sourceEnd <=? sourceStart)
  then Normal target
  else if byteLength source <? sourceStart
  then Throw (RangeError "sourceStart is out of range")
  else
    let sourceEnd :=
      if byteLength target - targetStart <? sourceEnd - sourceStart
      then sourceStart + byteLength target - targetStart
      else sourceEnd in
    let nb := Z.min (sourceEnd - sourceStart) (byteLength source - sourceStart) in
    Normal (take (Z.to_nat targetStart) target
            ++ take (Z.to_nat nb) (drop (Z.to_nat sourceStart) source)
            ++ drop (Z.to_nat (targetStart + nb)) target).

(** *** The host

    What the library calls and does not define. None of it is computed
    by the code under study, so each is a field of an environment the
    transports are run in:
    - [JSON_stringify]: the JSON text of a message, taken to be defined
      for the messages the client composes;
    - [Zlib_deflate]: the deflate stream of a text;
    - [random]: the n-th byte [Crypto.randomBytes] draws in a call;
    - [garbage]: the byte found at an offset of the i-th buffer that
      [Buffer.allocUnsafe] hands out without clearing it;
    - [Date_now]: [Date.now() / 1000];
    - [hostname]: [Os.hostname()]. *)
Record Host := {
  JSON_stringify : value -> string;
  Zlib_deflate : string -> Buffer;
  random : nat -> byte;
  garbage : nat -> nat -> byte;
  Date_now : number;
  hostname : string
}.

Definition randomBytes (h : Host) (size : Z) : Buffer :=
  map (random h) (seq 0 (Z.to_nat size)).

(** [i] names the allocation: two buffers of one size need not hold the
    same left-over bytes. *)
Definition allocUnsafe (h : Host) (i : nat) (size : Z) : Buffer :=
  map (garbage h i) (seq 0 (Z.to_nat size)).

(** The object at the other end of a reference. The transports keep
    references to their socket and to the client, compare them with
    [null] and call methods on them; the effects of those calls are
    recorded in the world the transport runs in. *)
Inductive ref := Ref (id : nat).

End JS.

Export JS.

(** Sequencing, [x ← c; k]: an exception thrown by [c] skips [k]. *)
#[export] Instance completion_bind : MBind completion :=
  fun A B k c => JS.bind c k.
#[export] Instance completion_ret : MRet completion := @JS.Normal.

(* ===================================================================== *)
(** ** lib/udp.js                                                         *)
(* ===================================================================== *)

Module Udp.

Definition kChunkHeaderSize : Z := 12.
Definition kDefaultBufSize : Z := 1400.
Definition kMagicByte0 : Z := 0x1e.
Definition kMagicByte1 : Z := 0x0f.
Definition kMaxChunks : Z := 128.
Definition kMessageIdBytes : Z := 8.
Definition kOffsetMagicByte0 : nat := 0.
Definition kOffsetMagicByte1 : nat := 1.
Definition kOffsetMessageId : nat := 2.
Definition kOffsetSequenceNumber : nat := 10.
Definition kOffsetSequenceCount : nat := 11.
Definition kOffsetPayload : nat := 12.

Definition supportedCompression (c : string) : bool :=
  String.eqb c "none" || String.eqb c "zlib".

Record UdpTransport := {
  bufferSize : Z;
  client : option ref;
  compression : string;
  host : string;
  port : number;
  socket : option ref;
  reuseBuffer : bool
}.

(** [constructor (options, client)]. *)
Definition constructor (options : list (string * value)) (client : option ref)
  : completion UdpTransport :=
  let compression := get_default options "compression" (String "zlib") in
  let bufferSize := get_default options "bufferSize" (Number (Int kDefaultBufSize)) in
  let graylogHost := get_default options "graylogHost" Undefined in
  let graylogPort := get_default options "graylogPort" Undefined in
  let reuseBuffer := get_default options "reuseBuffer" (Bool true) in
  match bufferSize with
  | Number n =>
    if number_leb n 0 || negb (isSafeInteger bufferSize)
    then Throw (RangeError "bufferSize must be a safe positive integer")
    else if number_leb n kChunkHeaderSize
    then Throw (RangeError "bufferSize must be larger than 12 to support chunking")
    else
      match compression with
      | String c =>
        if negb (supportedCompression c)
        then Throw (Error ("unsupported compression type: " +:+ c))
        else
          match graylogHost with
          | String h =>
            match graylogPort with
            | Number p =>
              match reuseBuffer with
              | Bool r =>
                Normal {| bufferSize := match n with Int z => z | _ => 0 end;
                          client := client;
                          compression := c;
                          host := h;
                          port := p;
                          socket := None;
                          reuseBuffer := r |}
              | _ => Throw (TypeError "reuseBuffer must be a boolean")
              end
            | _ => Throw (TypeError "graylogPort must be a number")
            end
          | _ => Throw (TypeError "graylogHost must be a string")
          end
      | _ => Throw (TypeError "compression must be a string")
      end
  | _ => Throw (TypeError "bufferSize must be a number")
  end.

(** One call of [socket.send(buf, port, host[, callback])]: the bytes
    the buffer holds when the call is made and where they go. *)
Record Datagram := {
  dg_bytes : Buffer;
  dg_port : number;
  dg_host : string
}.

(** The closure passed to [socket.send] by [_send]: the variables of
    the enclosing call that its body reads. [cb_chunk] is the one
    buffer that the whole message is sent through. *)
Record Callback := {
  cb_data : Buffer;
  cb_chunk : Buffer;
  cb_sequenceId : Z;
  cb_bytesToSend : Z;
  cb_bytesToCopy : Z
}.

(** The transport and what it has done to the outside so far:
    - [sent]: the calls of [socket.send], oldest first;
    - [emitted]: the ['error'] events emitted on the client;
    - [pending]: the completion callbacks of writes still in flight;
    - [sockets]: how many sockets [connect] has created;
    - [closed]: the sockets [close] has closed. *)
Record World := {
  transport : UdpTransport;
  sent : list Datagram;
  emitted : list exn;
  pending : list Callback;
  sockets : nat;
  closed : list ref
}.

Definition with_transport (t : UdpTransport) (w : World) : World :=
  {| transport := t; sent := sent w; emitted := emitted w;
     pending := pending w; sockets := sockets w; closed := closed w |}.

Definition with_socket (s : option ref) (t : UdpTransport) : UdpTransport :=
  {| bufferSize := bufferSize t; client := client t;
     compression := compression t; host := host t; port := port t;
     socket := s; reuseBuffer := reuseBuffer t |}.

Definition with_client (c : option ref) (t : UdpTransport) : UdpTransport :=
  {| bufferSize := bufferSize t; client := c;
     compression := compression t; host := host t; port := port t;
     socket := socket t; reuseBuffer := reuseBuffer t |}.

(** A transport fresh from its constructor. *)
Definition new (t : UdpTransport) : World :=
  {| transport := t; sent := []; emitted := []; pending := [];
     sockets := 0; closed := [] |}.

(** [this.socket.send(buf, this.port, this.host)] and, with
    [callback], [this.socket.send(buf, this.port, this.host, cb)]. *)
Definition socket_send (buf : Buffer) (callback : option Callback) (w : World)
  : completion World :=
  match socket (transport w) with
  | None => Throw (TypeError "Cannot read property 'send' of null")
  | Some _ =>
    Normal {| transport := transport w;
              sent := sent w ++ [{| dg_bytes := buf;
                                    dg_port := port (transport w);
                                    dg_host := host (transport w) |}];
              emitted := emitted w;
              pending := pending w ++ match callback with
                                      | Some cb => [cb]
                                      | None => []
                                      end;
              sockets := sockets w;
              closed := closed w |}
  end.

(** [this.client.emit('error', err)]. The client is the channel the
    errors are reported on: it is taken to have a listener for
    ['error'], so that [emit] hands the error over and returns. *)
Definition client_emit (err : exn) (w : World) : completion World :=
  match client (transport w) with
  | None => Throw (TypeError "Cannot read property 'emit' of null")
  | Some _ =>
    Normal {| transport := transport w; sent := sent w;
              emitted := emitted w ++ [err];
              pending := pending w; sockets := sockets w;
              closed := closed w |}
  end.

(** [connect ()]: a socket is created and kept, with [on_error] as
    the handler of its ['error'] event. *)
Definition connect (w : World) : World :=
  {| transport := with_socket (Some (Ref (sockets w))) (transport w);
     sent := sent w; emitted := emitted w; pending := pending w;
     sockets := S (sockets w); closed := closed w |}.

(** The handler of the socket's ['error'] event. *)
Definition on_error (err : exn) (w : World) : completion World :=
  client_emit err w.

(** [close ()]. *)
Definition close (w : World) : completion World :=
  match socket (transport w) with
  | None => Normal w
  | Some socket =>
    Normal {| transport := with_socket None (with_client None (transport w));
              sent := sent w; emitted := emitted w; pending := pending w;
              sockets := sockets w; closed := closed w ++ [socket] |}
  end.

(** [_send (data, chunk, sequenceId, bytesToSend)], up to the call of
    [socket.send]; the callback it passes is [_send_callback]. *)
Definition _send (data chunk : Buffer) (sequenceId bytesToSend : Z) (w : World)
  : completion World :=
  let bytesToCopy := Z.min bytesToSend (byteLength chunk - kChunkHeaderSize) in
  let dataStart := byteLength data - bytesToSend in
  let dataEnd := dataStart + bytesToCopy in
  let chunk := Buffer_set kOffsetSequenceNumber sequenceId chunk in
  chunk ← Buffer_copy data chunk (Z.of_nat kOffsetPayload) dataStart dataEnd;
  socket_send chunk
              (Some {| cb_data := data; cb_chunk := chunk;
                       cb_sequenceId := sequenceId;
                       cb_bytesToSend := bytesToSend;
                       cb_bytesToCopy := bytesToCopy |})
              w.

(** The body of the callback, run when the write completes with
    [err]. *)
Definition _send_callback (cb : Callback) (err : option exn) (w : World)
  : completion World :=
  match err with
  | Some err => client_emit err w
  | None =>
    let remainingBytes := cb_bytesToSend cb - cb_bytesToCopy cb in
    if 0 <? remainingBytes
    then _send (cb_data cb) (cb_chunk cb) (cb_sequenceId cb + 1) remainingBytes w
    else Normal w
  end.

(** The event loop delivers the completion of the oldest write in
    flight. *)
Definition complete (err : option exn) (w : World) : completion World :=
  match pending w with
  | [] => Normal w
  | cb :: rest =>
    _send_callback cb err
      {| transport := transport w; sent := sent w; emitted := emitted w;
         pending := rest; sockets := sockets w; closed := closed w |}
  end.

(** The event loop delivers completions one after the other, with the
    outcomes [errs] of the writes. *)
Fixpoint deliver (errs : list (option exn)) (w : World) : completion World :=
  match errs with
  | [] => Normal w
  | err :: errs => w ← complete err w; deliver errs w
  end.

(** [for (let i = from; i < to; i++) body(i)]. *)
Fixpoint for_loop (count : nat) (i : Z) (body : Z -> World -> completion World)
         (w : World) : completion World :=
  match count with
  | O => Normal w
  | S count => w ← body i w; for_loop count (i + 1) body w
  end.

Section WithHost.
Variable h : Host.

(** The bytes [send] works on: the JSON text, deflated or not. *)
Definition serialize (t : UdpTransport) (message : value) : Buffer :=
  let json := JSON_stringify h message in
  if String.eqb (compression t) "zlib"
  then Zlib_deflate h json
  else Buffer_from json.

(** One turn of the loop of the [reuseBuffer = false] branch. *)
Definition send_fragment (msg msgId : Buffer)
           (maxDataPerChunk numChunks chunkSize sequenceId : Z) (w : World)
  : completion World :=
  let buf := allocUnsafe h (Z.to_nat sequenceId) chunkSize in
  let msgStart := sequenceId * maxDataPerChunk in
  let msgEnd := Z.min (byteLength msg) (msgStart + maxDataPerChunk) in
  let buf := Buffer_set kOffsetMagicByte0 kMagicByte0 buf in
  let buf := Buffer_set kOffsetMagicByte1 kMagicByte1 buf in
  buf ← Buffer_copy msgId buf (Z.of_nat kOffsetMessageId) 0 (byteLength msgId);
  let buf := Buffer_set kOffsetSequenceCount numChunks buf in
  let buf := Buffer_set kOffsetSequenceNumber sequenceId buf in
  buf ← Buffer_copy msg buf (Z.of_nat kOffsetPayload) msgStart msgEnd;
  socket_send buf None w.

(** [send (message)]. The two [await]s are taken in one go: nothing
    else runs on the transport while a [send] is suspended. *)
Definition send (message : value) (w : World) : completion World :=
  let this := transport w in
  let msg := serialize this message in
  let byteLength := JS.byteLength msg in
  if byteLength <=? bufferSize this
  then socket_send msg None w
  else
    let maxDataPerChunk := bufferSize this - kChunkHeaderSize in
    let numChunks := Math_ceil_div byteLength maxDataPerChunk in
    if kMaxChunks <? numChunks
    then client_emit (Error "message too large") w
    else
      let totalHeaderSize := numChunks * kChunkHeaderSize in
      let chunkSize := Math_ceil_div (byteLength + totalHeaderSize) numChunks in
      let msgId := randomBytes h kMessageIdBytes in
      if reuseBuffer this
      then
        let buf := allocUnsafe h 0 chunkSize in
        let buf := Buffer_set kOffsetMagicByte0 kMagicByte0 buf in
        let buf := Buffer_set kOffsetMagicByte1 kMagicByte1 buf in
        buf ← Buffer_copy msgId buf (Z.of_nat kOffsetMessageId) 0 (JS.byteLength msgId);
        let buf := Buffer_set kOffsetSequenceCount numChunks buf in
        _send msg buf 0 byteLength w
      else
        for_loop (Z.to_nat numChunks) 0
                 (send_fragment msg msgId maxDataPerChunk numChunks chunkSize) w.

End WithHost.

(** *** The datagrams as a receiver reads them

    The fields of the chunk header, at the offsets the constants give. *)

Definition magic (d : Buffer) : Buffer := take 2 d.

Definition MessageID (d : Buffer) : Buffer :=
  take (Z.to_nat kMessageIdBytes) (drop kOffsetMessageId d).

Definition byte_at (i : nat) (d : Buffer) : option Z :=
  (fun b => Z.of_N (Byte.to_N b)) <$> d !! i.

Definition SequenceNumber (d : Buffer) : option Z := byte_at kOffsetSequenceNumber d.

Definition SequenceCount (d : Buffer) : option Z := byte_at kOffsetSequenceCount d.

Definition payload (d : Buffer) : Buffer := drop kOffsetPayload d.

(** What a receiver that has all the fragments of a message puts
    together: their payloads, in the order of their sequence numbers.
    [fragments] is in that order already. *)
Definition reassemble (fragments : list Datagram) : Buffer :=
  concat (map (fun d => payload (dg_bytes d)) fragments).

(** *** The shape of what is dispatched

    [framed]: a buffer of the chunk size that holds the magic bytes, the
    message id and the sequence count where the header has them. *)
Definition framed (msgId : Buffer) (numChunks chunkSize : Z) (chunk : Buffer) : Prop :=
  byteLength chunk = chunkSize /\
  take 10 chunk = ToUint8 kMagicByte0 :: ToUint8 kMagicByte1 :: msgId /\
  chunk !! kOffsetSequenceCount = Some (ToUint8 numChunks).

(** A dispatched fragment: addressed as the transport says, of the size
    of the chunk buffer, with the header of fragment [i] of
    [numChunks], and carrying the bytes of the message from [i * stride]
    on, as many as the copy took. *)
Definition fragment (t : UdpTransport) (msg msgId : Buffer)
           (numChunks chunkSize stride : Z) (i : Z) (d : Datagram) : Prop :=
  dg_port d = port t /\ dg_host d = host t /\
  framed msgId numChunks chunkSize (dg_bytes d) /\
  dg_bytes d !! kOffsetSequenceNumber = Some (ToUint8 i) /\
  let nb := Z.min (Z.min stride (chunkSize - kChunkHeaderSize))
                  (byteLength msg - i * stride) in
  take (Z.to_nat nb) (payload (dg_bytes d))
  = take (Z.to_nat nb) (drop (Z.to_nat (i * stride)) msg).

Definition fragments (t : UdpTransport) (msg msgId : Buffer)
           (numChunks chunkSize stride : Z) (frags : list Datagram) : Prop :=
  forall (i : nat) d, frags !! i = Some d ->
    fragment t msg msgId numChunks chunkSize stride (Z.of_nat i) d.

(** The state of a message sent through one buffer while the write of
    fragment [k] is in flight: fragments [0..k] are dispatched, one
    callback waits, and it holds the buffer, with the bytes it had when
    it was passed to the socket for fragment [k]. *)
Definition in_flight (w0 : World) (msg msgId : Buffer) (numChunks chunkSize : Z)
           (k : Z) (w : World) : Prop :=
  let perChunk := chunkSize - kChunkHeaderSize in
  transport w = transport w0 /\ emitted w = emitted w0 /\
  sockets w = sockets w0 /\ closed w = closed w0 /\
  exists frags chunk,
    sent w = sent w0 ++ frags /\ Z.of_nat (length frags) = k + 1 /\
    fragments (transport w0) msg msgId numChunks chunkSize perChunk frags /\
    last (map dg_bytes frags) = Some chunk /\
    framed msgId numChunks chunkSize chunk /\
    pending w = [{| cb_data := msg; cb_chunk := chunk; cb_sequenceId := k;
                    cb_bytesToSend := byteLength msg - k * perChunk;
                    cb_bytesToCopy :=
                      Z.min (byteLength msg - k * perChunk) perChunk |}].

(** The state of a message no write of which is in flight: [count]
    fragments are dispatched and [errs] went to the client. *)
Definition settled (w0 : World) (msg msgId : Buffer) (numChunks chunkSize stride : Z)
           (count : Z) (errs : list exn) (w : World) : Prop :=
  transport w = transport w0 /\ emitted w = emitted w0 ++ errs /\
  sockets w = sockets w0 /\ closed w = closed w0 /\ pending w = [] /\
  exists frags,
    sent w = sent w0 ++ frags /\ Z.of_nat (length frags) = count /\
    fragments (transport w0) msg msgId numChunks chunkSize stride frags.

End Udp.


(* ===================================================================== *)
(** ** lib/tcp.js                                                         *)
(* ===================================================================== *)

Module Tcp.

Record TcpTransport := {
  backlog : option (list Buffer);
  canAcceptData : bool;
  client : option ref;
  host : string;
  maxBacklogSize : Z;
  port : number;
  socket : option ref;
  socketOptions : option (list (string * value))
}.

(** [constructor (options, client)]. *)
Definition constructor (options : list (string * value)) (client : option ref)
  : completion TcpTransport :=
  let graylogHost := get_default options "graylogHost" Undefined in
  let graylogPort := get_default options "graylogPort" Undefined in
  let maxBacklogSize := get_default options "maxBacklogSize" (Number (Int 1024)) in
  let socketOptions := get_default options "socketOptions" (Object []) in
  match graylogHost with
  | String h =>
    match graylogPort with
    | Number p =>
      match maxBacklogSize with
      | Number n =>
        if number_ltb n 0 || negb (isSafeInteger maxBacklogSize)
        then Throw (RangeError "maxBacklogSize must be a safe integer >= 0")
        else if isNull socketOptions || negb (String.eqb (typeof socketOptions) "object")
        then Throw (TypeError "socketOptions must be an object")
        else
          Normal {| backlog := Some [];
                    canAcceptData := true;
                    client := client;
                    host := h;
                    maxBacklogSize := match n with Int z => z | _ => 0 end;
                    port := p;
                    socket := None;
                    socketOptions :=
                      Some (set (set (own_props socketOptions)
                                     "port" graylogPort)
                                "host" graylogHost) |}
      | _ => Throw (TypeError "maxBacklogSize must be a number")
      end
    | _ => Throw (TypeError "graylogPort must be a number")
    end
  | _ => Throw (TypeError "graylogHost must be a string")
  end.

(** The transport and what it has done to the outside so far:
    - [written]: the buffers passed to [socket.write], oldest first;
    - [accepts]: what [socket.write] returns, call by call: [accepts n]
      is the answer of the write that follows [n] earlier ones;
    - [emitted]: the ['error'] events emitted on the client;
    - [listening]: whether the client has a listener for ['error']; the
      application adds it, the transport never does;
    - [sockets]: how many sockets [connect] has created;
    - [ended]: the sockets [close] has ended. *)
Record World := {
  transport : TcpTransport;
  written : list Buffer;
  accepts : nat -> bool;
  emitted : list exn;
  listening : bool;
  sockets : nat;
  ended : list ref
}.

Definition with_transport (t : TcpTransport) (w : World) : World :=
  {| transport := t; written := written w; accepts := accepts w;
     emitted := emitted w; listening := listening w;
     sockets := sockets w; ended := ended w |}.

Definition with_backlog (b : option (list Buffer)) (t : TcpTransport) : TcpTransport :=
  {| backlog := b; canAcceptData := canAcceptData t; client := client t;
     host := host t; maxBacklogSize := maxBacklogSize t; port := port t;
     socket := socket t; socketOptions := socketOptions t |}.

Definition with_canAcceptData (b : bool) (t : TcpTransport) : TcpTransport :=
  {| backlog := backlog t; canAcceptData := b; client := client t;
     host := host t; maxBacklogSize := maxBacklogSize t; port := port t;
     socket := socket t; socketOptions := socketOptions t |}.

Definition with_client (c : option ref) (t : TcpTransport) : TcpTransport :=
  {| backlog := backlog t; canAcceptData := canAcceptData t; client := c;
     host := host t; maxBacklogSize := maxBacklogSize t; port := port t;
     socket := socket t; socketOptions := socketOptions t |}.

(** A transport fresh from its constructor, in front of a socket that
    will answer its writes with [accepts], and with a client that has a
    listener for ['error'] or has none. *)
Definition new (t : TcpTransport) (accepts : nat -> bool) (listening : bool)
  : World :=
  {| transport := t; written := []; accepts := accepts; emitted := [];
     listening := listening; sockets := 0; ended := [] |}.

(** [this.socket.write(data)]: the world after the call and the value
    returned. *)
Definition socket_write (data : Buffer) (w : World) : completion (bool * World) :=
  match socket (transport w) with
  | None => Throw (TypeError "Cannot read property 'write' of null")
  | Some _ =>
    Normal (accepts w (length (written w)),
            {| transport := transport w;
               written := written w ++ [data];
               accepts := accepts w;
               emitted := emitted w;
               listening := listening w;
               sockets := sockets w;
               ended := ended w |})
  end.

(** [this.client.emit('error', err)]. The call is synchronous. The
    client is an [EventEmitter]: with a listener for ['error'] the event
    is delivered and [emit] returns; without one [emit] throws the
    error it was given, out of the function that called it. *)
Definition client_emit (err : exn) (w : World) : completion World :=
  match client (transport w) with
  | None => Throw (TypeError "Cannot read property 'emit' of null")
  | Some _ =>
    if listening w
    then Normal {| transport := transport w; written := written w;
                   accepts := accepts w; emitted := emitted w ++ [err];
                   listening := listening w;
                   sockets := sockets w; ended := ended w |}
    else Throw err
  end.

(** [connect ()]: the socket is created and kept; the promise returned
    resolves when the connection is established. *)
Definition connect (w : World) : World :=
  {| transport :=
       {| backlog := backlog (transport w);
          canAcceptData := canAcceptData (transport w);
          client := client (transport w);
          host := host (transport w);
          maxBacklogSize := maxBacklogSize (transport w);
          port := port (transport w);
          socket := Some (Ref (sockets w));
          socketOptions := socketOptions (transport w) |};
     written := written w; accepts := accepts w; emitted := emitted w;
     listening := listening w;
     sockets := S (sockets w); ended := ended w |}.

(** The handler of the socket's ['error'] event. *)
Definition on_error (err : exn) (w : World) : completion World :=
  client_emit err w.

(** The loop of the ['drain'] handler,
    [while (this.canAcceptData && this.backlog.length > 0)]; every turn
    takes one message off the backlog, so [fuel] turns are enough once
    [fuel] exceeds its length. *)
Fixpoint drain_while (fuel : nat) (w : World) : completion World :=
  match fuel with
  | O => Normal w
  | S fuel =>
    if canAcceptData (transport w)
    then
      match backlog (transport w) with
      | None => Throw (TypeError "Cannot read property 'length' of null")
      | Some [] => Normal w
      | Some (data :: rest) =>
        let w := with_transport (with_backlog (Some rest) (transport w)) w in
        r ← socket_write data w;
        drain_while fuel
          (with_transport (with_canAcceptData r.1 (transport r.2)) r.2)
      end
    else Normal w
  end.

(** The handler of the socket's ['drain'] event. *)
Definition on_drain (w : World) : completion World :=
  let w := with_transport (with_canAcceptData true (transport w)) w in
  drain_while (S (length (default [] (backlog (transport w))))) w.

(** [close ()]. *)
Definition close (w : World) : completion World :=
  let w := with_transport (with_client None (transport w)) w in
  match socket (transport w) with
  | None => Normal w
  | Some socket =>
    Normal {| transport :=
                {| backlog := None;
                   canAcceptData := canAcceptData (transport w);
                   client := client (transport w);
                   host := host (transport w);
                   maxBacklogSize := maxBacklogSize (transport w);
                   port := port (transport w);
                   socket := None;
                   socketOptions := None |};
              written := written w; accepts := accepts w;
              emitted := emitted w; listening := listening w;
              sockets := sockets w;
              ended := ended w ++ [socket] |}
  end.

(** The character [\0]. *)
Definition NUL : string := String.String Ascii.zero "".

Section WithHost.
Variable h : Host.

(** The frame of a message: its JSON text and one NUL. *)
Definition frame (message : value) : Buffer :=
  Buffer_from (JSON_stringify h message +:+ NUL).

(** [send (message)]. *)
Definition send (message : value) (w : World) : completion World :=
  let msg := frame message in
  if canAcceptData (transport w)
  then
    r ← socket_write msg w;
    Normal (with_transport (with_canAcceptData r.1 (transport r.2)) r.2)
  else
    match backlog (transport w) with
    | None => Throw (TypeError "Cannot read property 'length' of null")
    | Some backlog =>
      if Z.of_nat (length backlog) <? maxBacklogSize (transport w)
      then Normal (with_transport
                     (with_backlog (Some (backlog ++ [msg])) (transport w)) w)
      else client_emit (Error "too many messages buffered") w
    end.

(** What happens to a connected transport: the application calls
    [send], the socket emits ['drain']. *)
Inductive event :=
| Send (message : value)
| Drain.

Definition step (e : event) (w : World) : completion World :=
  match e with
  | Send message => send message w
  | Drain => on_drain w
  end.

Fixpoint run (events : list event) (w : World) : completion World :=
  match events with
  | [] => Normal w
  | e :: events => w ← step e w; run events w
  end.

(** The frames of the messages passed to [send], in the order of the
    calls. *)
Fixpoint frames (events : list event) : list Buffer :=
  match events with
  | [] => []
  | Send message :: events => frame message :: frames events
  | Drain :: events => frames events
  end.

End WithHost.

(** A transport that is connected and not closed, as [connect] after
    the constructor leaves it and as [send] and the ['drain'] handler
    keep it: the backlog is within its bound and is empty whenever the
    socket accepts data. *)
Definition connected (w : World) (backlog : list Buffer) : Prop :=
  (exists s, socket (transport w) = Some s) /\
  (exists c, client (transport w) = Some c) /\
  Tcp.backlog (transport w) = Some backlog /\
  Z.of_nat (length backlog) <= maxBacklogSize (transport w) /\
  (canAcceptData (transport w) = true -> backlog = []).

(** What [send] and the ['drain'] handler leave alone. *)
Definition preserved (w w' : World) : Prop :=
  socket (transport w') = socket (transport w) /\
  client (transport w') = client (transport w) /\
  maxBacklogSize (transport w') = maxBacklogSize (transport w) /\
  accepts w' = accepts w /\
  ended w' = ended w /\
  listening w' = listening w.

End Tcp.


(* ===================================================================== *)
(** ** lib/index.js                                                       *)
(* ===================================================================== *)

Module Gelf.

Definition kGelfVersion : string := "1.1".

(** [kFieldRegEx = /^[\w.-]*$/]. *)
Definition is_field_char (c : Ascii.ascii) : bool :=
  let n := Ascii.nat_of_ascii c in
  ((48 <=? n) && (n <=? 57))%nat        (* 0-9 *)
  || ((65 <=? n) && (n <=? 90))%nat     (* A-Z *)
  || ((97 <=? n) && (n <=? 122))%nat    (* a-z *)
  || (n =? 95)%nat                      (* _ *)
  || (n =? 46)%nat                      (* . *)
  || (n =? 45)%nat.                     (* - *)

Definition kFieldRegEx_test (key : string) : bool :=
  forallb is_field_char (String.list_ascii_of_string key).

Definition EMERG : Z := 0.
Definition ALERT : Z := 1.
Definition CRIT : Z := 2.
Definition ERR : Z := 3.
Definition WARNING : Z := 4.
Definition NOTICE : Z := 5.
Definition INFO : Z := 6.
Definition DEBUG : Z := 7.

(** [supportedTransports = new Set(['udp'])]. *)
Definition supportedTransports (t : string) : bool := String.eqb t "udp".

(** The client: [this[kTransport]] is a reference to the transport, or
    [null]. *)
Record GelfClient := {
  host : string;
  version : string;
  kTransport : option ref
}.

(** The client, the transport it created with all that this transport
    has done so far, and the promises of [send] that were rejected (the
    client keeps none of them). *)
Record World := {
  this : GelfClient;
  udp : Udp.World;
  unhandled : list exn
}.

Section WithHost.
Variable h : Host.

(** [constructor (options = {})]. *)
Definition constructor (options : value) : completion World :=
  let options := match options with Undefined => Object [] | _ => options end in
  if isNull options || negb (String.eqb (typeof options) "object")
  then Throw (TypeError "options must be an object")
  else
    let props := own_props options in
    let host := get_default props "host" (String (hostname h)) in
    let transport := get_default props "transport" (String "udp") in
    let version := get_default props "version" (String kGelfVersion) in
    match host with
    | String host =>
      match version with
      | String version =>
        match transport with
        | String transport =>
          if negb (supportedTransports transport)
          then Throw (Error ("unsupported transport: " +:+ transport))
          else
            t ← Udp.constructor props (Some (Ref 0));
            Normal {| this := {| host := host; version := version;
                                 kTransport := Some (Ref 0) |};
                      udp := Udp.new t;
                      unhandled := [] |}
        | _ => Throw (TypeError "transport must be a string")
        end
      | _ => Throw (TypeError "version must be a string")
      end
    | _ => Throw (TypeError "host must be a string")
    end.

(** [connect ()]. *)
Definition connect (w : World) : completion World :=
  match kTransport (this w) with
  | None => Throw (TypeError "Cannot read property 'connect' of null")
  | Some _ =>
    Normal {| this := this w; udp := Udp.connect (udp w);
              unhandled := unhandled w |}
  end.

(** [close ()]. *)
Definition close (w : World) : completion World :=
  let transport := kTransport (this w) in
  let w := {| this := {| host := host (this w); version := version (this w);
                         kTransport := None |};
              udp := udp w; unhandled := unhandled w |} in
  match transport with
  | None => Throw (TypeError "Cannot read property 'close' of null")
  | Some _ =>
    u ← Udp.close (udp w);
    Normal {| this := this w; udp := u; unhandled := unhandled w |}
  end.

(** What the loop over the additional fields stores for a value:
    numbers and strings as they are, [String(value)] of the rest. An
    object is taken to convert as a plain object does, through the
    [toString] it inherits from [Object.prototype]. *)
Definition field_value (v : value) : value :=
  match v with
  | Number _ | String _ => v
  | Undefined => String "undefined"
  | Null => String "null"
  | Bool b => String (if b then "true" else "false")
  | NativeError name message _ =>
    String (if String.eqb name "" then message
            else if String.eqb message "" then name
            else name +:+ ": " +:+ message)
  | Object _ => String "[object Object]"
  end.

(** [message[name] = v] in the loop below, where [v] is a number or a
    string. [message] is an object literal that has no
    property [__proto__] of its own, so this name is the accessor it
    inherits from [Object.prototype], whose setter ignores a value that
    is neither an object nor [null]: the assignment adds no property
    and changes nothing. Under every other name the loop can form the
    value becomes an own property. *)
Definition assign_field (message : list (string * value)) (name : string)
           (v : value) : list (string * value) :=
  if String.eqb name "__proto__" then message else set message name v.

(** The loop over [Object.keys(additionalFields)]. *)
Fixpoint add_fields (additionalFields : list (string * value)) (keys : list string)
         (message : list (string * value)) : list (string * value) :=
  match keys with
  | [] => message
  | key :: keys =>
    add_fields additionalFields keys
      (if negb (String.eqb key "id") && kFieldRegEx_test key
       then assign_field message ("_" +:+ key)
                         (field_value (get additionalFields key))
       else message)
  end.

(** The message [this[kLogFunction]] composes. *)
Definition compose (c : GelfClient) (short full additionalFields timestamp level : value)
  : value :=
  let shortMessage :=
    match short with
    | NativeError name message stack =>
      Object [("name", String name); ("message", String message);
              ("stack", String stack)]
    | _ => short
    end in
  let isValidLevel :=
    isSafeInteger level
    && match level with
       | Number n => negb (number_ltb n 0) && number_leb n 7
       | _ => false
       end in
  let message :=
    [("version", String (version c));
     ("host", String (host c));
     ("short_message", shortMessage);
     ("full_message", full);
     ("level", if isValidLevel then level else Number (Int 1));
     ("timestamp", if isFinite timestamp then timestamp
                   else Number (Date_now h))] in
  Object
    (if String.eqb (typeof additionalFields) "object" && negb (isNull additionalFields)
     then add_fields (own_props additionalFields) (Object_keys additionalFields) message
     else message).

(** [this[kLogFunction] (short, full, additionalFields, timestamp,
    level)]. The transport's [send] is asynchronous: what it throws
    rejects the promise it returns, which the caller drops. *)
Definition kLogFunction (short full additionalFields timestamp level : value)
           (w : World) : completion World :=
  let message := compose (this w) short full additionalFields timestamp level in
  match kTransport (this w) with
  | None => Throw (TypeError "Cannot read property 'send' of null")
  | Some _ =>
    match Udp.send h message (udp w) with
    | Normal u => Normal {| this := this w; udp := u; unhandled := unhandled w |}
    | Throw e => Normal {| this := this w; udp := udp w;
                           unhandled := unhandled w ++ [e] |}
    end
  end.

(** [log (shortMessage, fullMessage, additionalFields, timestamp,
    level)]. *)
Definition log (shortMessage fullMessage additionalFields timestamp level : value)
  : World -> completion World :=
  kLogFunction shortMessage fullMessage additionalFields timestamp level.

(** The functions generated for the levels: [emergency], [alert],
    [critical], [error], [warning], [notice], [info] and [debug] are
    [log_at EMERG], ..., [log_at DEBUG]. *)
Definition log_at (level : Z) (shortMessage fullMessage additionalFields timestamp : value)
  : World -> completion World :=
  kLogFunction shortMessage fullMessage additionalFields timestamp (Number (Int level)).

Definition emergency := log_at EMERG.
Definition alert := log_at ALERT.
Definition critical := log_at CRIT.
Definition error := log_at ERR.
Definition warning := log_at WARNING.
Definition notice := log_at NOTICE.
Definition info := log_at INFO.
Definition debug := log_at DEBUG.

End WithHost.

End Gelf.


(* ===================================================================== *)
(** ** The cases of test/index.js                                         *)
(* ===================================================================== *)

Module Fixture.

(** The double quote. *)
Definition quote : string := String.String (Ascii.ascii_of_nat 34) "".

(** A host for the test cases: [JSON.stringify] of a string without
    characters to escape puts it between quotes (the tests send
    strings), [deflate] is not used, the random bytes are [0xaa] and the
    memory handed out holds [0xee]. *)
Definition host : Host :=
  {| JSON_stringify := fun v => match v with
                                | String s => quote +:+ s +:+ quote
                                | _ => "null"
                                end;
     Zlib_deflate := fun s => Buffer_from s;
     random := fun _ => xaa;
     garbage := fun _ _ => xee;
     Date_now := Int 0;
     hostname := "localhost" |}.

(** [new UdpTransport({ bufferSize, compression: 'none', graylogHost:
    'localhost', graylogPort: 9000, reuseBuffer }, client)], connected. *)
Definition udp (bufferSize : Z) (reuseBuffer : bool) : Udp.World :=
  Udp.connect
    (Udp.new {| Udp.bufferSize := bufferSize;
                Udp.client := Some (Ref 0);
                Udp.compression := "none";
                Udp.host := "localhost";
                Udp.port := Int 9000;
                Udp.socket := None;
                Udp.reuseBuffer := reuseBuffer |}).

(** ['x'.repeat(n)]. *)
Definition xs (n : nat) : value :=
  String (String.string_of_list_ascii (repeat (Ascii.ascii_of_nat 120) n)).

(** ['x'.repeat(12)]: 14 bytes of JSON. *)
Definition x12 : value := String "xxxxxxxxxxxx".

(** What the tests assert of a call of [socket.send]: the length of
    the buffer, the bytes at offsets 0, 1, 10, 11 and 12, the port and
    the host. *)
Definition checked (d : Udp.Datagram)
  : nat * option Z * option Z * option Z * option Z * option Z * number * string :=
  (length (Udp.dg_bytes d),
   Udp.byte_at 0 (Udp.dg_bytes d), Udp.byte_at 1 (Udp.dg_bytes d),
   Udp.SequenceNumber (Udp.dg_bytes d), Udp.SequenceCount (Udp.dg_bytes d),
   Udp.byte_at 12 (Udp.dg_bytes d),
   Udp.dg_port d, Udp.dg_host d).

(** What they expect of the call number [called], of 14: 34 is the
    double quote and 120 is [x]. *)
Definition expected (called : Z)
  : nat * option Z * option Z * option Z * option Z * option Z * number * string :=
  (13%nat, Some 0x1e, Some 0x0f, Some called, Some 14,
   Some (if (called =? 0) || (called =? 13) then 34 else 120),
   Int 9000, "localhost").

(** A text of 21 characters: 23 bytes of JSON. *)
Definition a21 : value := String "abcdefghijklmnopqrstu".

(** [new TcpTransport({ graylogHost: 'localhost', graylogPort: 9000,
    maxBacklogSize }, client)], connected to a socket that answers its
    writes with [accepts]; the client has a listener for ['error'], as
    in the README ([client.on('error', console.error)]). *)
Definition tcp (maxBacklogSize : Z) (accepts : nat -> bool) : Tcp.World :=
  Tcp.connect
    (Tcp.new {| Tcp.backlog := Some [];
                Tcp.canAcceptData := true;
                Tcp.client := Some (Ref 0);
                Tcp.host := "localhost";
                Tcp.maxBacklogSize := maxBacklogSize;
                Tcp.port := Int 9000;
                Tcp.socket := None;
                Tcp.socketOptions :=
                  Some [("port", Number (Int 9000));
                        ("host", String "localhost")] |}
             accepts true).

(** The same transport under backpressure, a write having been refused,
    with [backlog] queued. *)
Definition tcp_backpressured (maxBacklogSize : Z) (backlog : list Buffer)
  : Tcp.World :=
  {| Tcp.transport :=
       {| Tcp.backlog := Some backlog;
          Tcp.canAcceptData := false;
          Tcp.client := Some (Ref 0);
          Tcp.host := "localhost";
          Tcp.maxBacklogSize := maxBacklogSize;
          Tcp.port := Int 9000;
          Tcp.socket := Some (Ref 0);
          Tcp.socketOptions :=
            Some [("port", Number (Int 9000)); ("host", String "localhost")] |};
     Tcp.written := [Tcp.frame host (String "first")];
     Tcp.accepts := fun n => (2 <? n)%nat;
     Tcp.emitted := [];
     Tcp.listening := true;
     Tcp.sockets := 1;
     Tcp.ended := [] |}.

(** Two frames queued, with room for four. *)
Definition queued : list Buffer :=
  [Tcp.frame host (String "second"); Tcp.frame host (String "third")].

Definition tcp_queued : Tcp.World := tcp_backpressured 4 queued.





(** The configuration of the README, and the same with the transport
    named. *)
Definition options : list (string * value) :=
  [("graylogHost", String "your-graylog-host");
   ("graylogPort", Number (Int 12201))].

Definition udp_options : list (string * value) :=
  ("transport", String "udp") :: options.

Definition tcp_options : list (string * value) :=
  ("transport", String "tcp") :: options.

(** [new GelfClient(options)]. *)
Definition client : Gelf.World :=
  {| Gelf.this := {| Gelf.host := "localhost"; Gelf.version := "1.1";
                     Gelf.kTransport := Some (Ref 0) |};
     Gelf.udp := Udp.new {| Udp.bufferSize := 1400;
                            Udp.client := Some (Ref 0);
                            Udp.compression := "zlib";
                            Udp.host := "your-graylog-host";
                            Udp.port := Int 12201;
                            Udp.socket := None;
                            Udp.reuseBuffer := true |};
     Gelf.unhandled := [] |}.

End Fixture.


(* ===================================================================== *)
(** ** Sequences of calls, and further cases                              *)
(* ===================================================================== *)

Module Calls.
Import Udp.

(** What an application may call on a datagram transport at any time,
    beside [send]. *)
Inductive call := Connect | Close.

Definition call_step (c : call) (w : World) : completion World :=
  match c with
  | Connect => Normal (connect w)
  | Close => close w
  end.

Fixpoint calls (cs : list call) (w : World) : completion World :=
  match cs with
  | [] => Normal w
  | c :: cs => w ← call_step c w; calls cs w
  end.

End Calls.

Module Cases.

(** [new UdpTransport({ bufferSize, compression: 'none', graylogHost:
    'localhost', graylogPort: 9000, reuseBuffer }, client)], before
    [connect]. *)
Definition udp_new (bufferSize : Z) (reuseBuffer : bool) : Udp.World :=
  Udp.new {| Udp.bufferSize := bufferSize;
             Udp.client := Some (Ref 0);
             Udp.compression := "none";
             Udp.host := "localhost";
             Udp.port := Int 9000;
             Udp.socket := None;
             Udp.reuseBuffer := reuseBuffer |}.

(** Options whose [socketOptions] name another destination, and the
    transport the constructor makes of them. *)
Definition tcp_elsewhere : list (string * value) :=
  [("graylogHost", String "localhost");
   ("graylogPort", Number (Int 9000));
   ("socketOptions",
    Object [("host", String "elsewhere"); ("allowHalfOpen", Bool true);
            ("port", Number (Int 1))])].

Definition tcp_elsewhere_t : Tcp.TcpTransport :=
  {| Tcp.backlog := Some [];
     Tcp.canAcceptData := true;
     Tcp.client := Some (Ref 0);
     Tcp.host := "localhost";
     Tcp.maxBacklogSize := 1024;
     Tcp.port := Int 9000;
     Tcp.socket := None;
     Tcp.socketOptions :=
       Some [("host", String "localhost"); ("allowHalfOpen", Bool true);
             ("port", Number (Int 9000))] |}.

(** The names of the fields every message has, in the order
    [kLogFunction] writes them. *)
Definition standard_fields : list string :=
  ["version"; "host"; "short_message"; "full_message"; "level"; "timestamp"].

(** The keys the loop over the additional fields takes: those that pass
    [key !== 'id' && kFieldRegEx.test(key)]. *)
Definition taken (key : string) : bool :=
  negb (String.eqb key "id") && Gelf.kFieldRegEx_test key.




End Cases.


(* ===================================================================== *)
(** ** The datagram transport: chunking                                   *)
(* ===================================================================== *)

Module UdpTheory.
Import Udp.

(** A transport that the constructor has made has a buffer that holds
    more than a chunk header, a compression that [send] knows, and no
    socket yet. *)
Lemma constructor_valid options client t :
  Udp.constructor options client = Normal t ->
  Udp.kChunkHeaderSize < Udp.bufferSize t /\
  (Udp.compression t = "none" \/ Udp.compression t = "zlib") /\
  Udp.socket t = None /\ Udp.client t = client.
Proof.
  unfold Udp.constructor. intros H.
  repeat case_match; try discriminate.
  all: injection H as <-; simpl.
  all: repeat match goal with
              | H : _ || _ = false |- _ => apply orb_false_elim in H as [? ?]
              | H : negb _ = false |- _ => apply negb_false_iff in H
              end.
  all: unfold number_leb, Udp.supportedCompression, Udp.kChunkHeaderSize in *.
  all: split_and!; try done; try lia.
  all: match goal with
       | H : _ || _ = true |- _ =>
         apply orb_true_iff in H as [H|H]; apply String.eqb_eq in H; auto
       end.
Qed.

(** *** The arithmetic of chunk sizes *)

Section Arithmetic.

(** [Math_ceil_div a b] is the least integer that is no less than
    [a / b]. *)
Lemma Math_ceil_div_bounds a b :
  0 < b -> a <= Math_ceil_div a b * b < a + b.
Proof.
  intros Hb. unfold Math_ceil_div.
  pose proof (Z.div_mod (- a) b ltac:(lia)) as Hdiv.
  pose proof (Z.mod_pos_bound (- a) b Hb) as Hmod.
  nia.
Qed.

Lemma Math_ceil_div_unique a b c :
  0 < b -> a <= c * b < a + b -> Math_ceil_div a b = c.
Proof.
  intros Hb Hc. pose proof (Math_ceil_div_bounds a b Hb). nia.
Qed.

Lemma Math_ceil_div_add_mul a b k :
  0 < b -> Math_ceil_div (a + b * k) b = Math_ceil_div a b + k.
Proof.
  intros Hb. apply Math_ceil_div_unique; [done|].
  pose proof (Math_ceil_div_bounds a b Hb). nia.
Qed.

End Arithmetic.

(** A message of [L] bytes that does not fit a buffer of [bufferSize]:
    how many chunks it makes, and how much of it each holds. *)
Section Geometry.
Variables bufferSize L : Z.
Hypothesis Hsize : kChunkHeaderSize < bufferSize.
Hypothesis Hlong : bufferSize < L.

Let maxDataPerChunk := bufferSize - kChunkHeaderSize.
Let numChunks := Math_ceil_div L maxDataPerChunk.
Let chunkSize := Math_ceil_div (L + numChunks * kChunkHeaderSize) numChunks.
Let perChunk := chunkSize - kChunkHeaderSize.

Lemma numChunks_bounds :
  2 <= numChunks /\
  (numChunks - 1) * maxDataPerChunk < L <= numChunks * maxDataPerChunk.
Proof.
  unfold kChunkHeaderSize in *.
  pose proof (Math_ceil_div_bounds L maxDataPerChunk
                ltac:(unfold maxDataPerChunk, kChunkHeaderSize; lia)) as H.
  fold numChunks in H. unfold maxDataPerChunk, kChunkHeaderSize in *. nia.
Qed.

(** The header and an even share of the message. *)
Lemma chunkSize_eq : chunkSize = Math_ceil_div L numChunks + kChunkHeaderSize.
Proof.
  pose proof numChunks_bounds as [Hn _].
  unfold chunkSize. apply Math_ceil_div_add_mul. lia.
Qed.

(** The share is at most what [bufferSize] leaves after the header, and
    the chunks before the last do not hold the whole message. *)
Lemma perChunk_bounds :
  1 <= perChunk <= maxDataPerChunk /\
  (numChunks - 1) * perChunk < L <= numChunks * perChunk.
Proof.
  pose proof numChunks_bounds as (Hn & Hlo & Hhi).
  pose proof (Math_ceil_div_bounds L numChunks ltac:(lia)) as H.
  unfold perChunk. rewrite chunkSize_eq.
  replace (Math_ceil_div L numChunks + kChunkHeaderSize - kChunkHeaderSize)
    with (Math_ceil_div L numChunks) by lia.
  set (p := Math_ceil_div L numChunks) in *.
  unfold maxDataPerChunk, kChunkHeaderSize in *.
  assert (p <= bufferSize - 12) by nia.
  assert (1 <= p) by nia.
  nia.
Qed.

Lemma chunkSize_le_bufferSize : chunkSize <= bufferSize.
Proof.
  pose proof perChunk_bounds as [[_ H] _].
  unfold perChunk, maxDataPerChunk in H. lia.
Qed.

End Geometry.

(** *** Buffers *)

Section Buffers.
Implicit Types source target buf : Buffer.

(** A byte stored reads back as the number stored. *)

Lemma ToUint8_value z : 0 <= z < 256 -> Z.of_N (Byte.to_N (ToUint8 z)) = z.
Proof.
  intros Hz. unfold ToUint8. rewrite Z.mod_small by done.
  destruct (Byte.of_N (Z.to_N z)) as [b|] eqn:Hb.
  - apply Byte.to_of_N in Hb. lia.
  - apply Byte.of_N_None_iff in Hb. lia.
Qed.

Lemma Buffer_set_length i v buf : length (Buffer_set i v buf) = length buf.
Proof. apply length_insert. Qed.

Lemma byteLength_Buffer_set i v buf : byteLength (Buffer_set i v buf) = byteLength buf.
Proof. unfold byteLength. by rewrite Buffer_set_length. Qed.

Lemma length_allocUnsafe h i size : length (allocUnsafe h i size) = Z.to_nat size.
Proof. unfold allocUnsafe. by rewrite length_map, length_seq. Qed.

Lemma length_randomBytes h size : length (randomBytes h size) = Z.to_nat size.
Proof. unfold randomBytes. by rewrite length_map, length_seq. Qed.

(** What [copy] does when its positions are in range. *)
Lemma Buffer_copy_in_range source target targetStart sourceStart sourceEnd :
  0 <= targetStart -> 0 <= sourceStart -> 0 <= sourceEnd ->
  sourceStart <= byteLength source ->
  let nb := Z.max 0 (Z.min (Z.min (sourceEnd - sourceStart)
                                  (byteLength target - targetStart))
                           (byteLength source - sourceStart)) in
  Buffer_copy source target targetStart sourceStart sourceEnd =
  Normal (take (Z.to_nat targetStart) target
          ++ take (Z.to_nat nb) (drop (Z.to_nat sourceStart) source)
          ++ drop (Z.to_nat (targetStart + nb)) target).
Proof.
  intros Ht Hs He Hsrc nb. unfold Buffer_copy.
  repeat match goal with
         | |- context [?a <? ?b] =>
           destruct (Z.ltb_spec a b); try lia
         end;
    repeat match goal with
           | |- context [?a <=? ?b] =>
             destruct (Z.leb_spec a b); try lia
           end; simpl.
  all: try (replace nb with 0 by lia; rewrite Z.add_0_r; simpl;
            by rewrite take_drop).
  all: f_equal; f_equal; f_equal; f_equal; lia.
Qed.



Implicit Types chunk : Buffer.

(** [copy] within range: the target keeps its length and what it holds
    before [targetStart] and after the bytes copied. *)

Lemma Buffer_copy_spec source target targetStart sourceStart sourceEnd :
  0 <= targetStart <= byteLength target ->
  0 <= sourceStart <= byteLength source ->
  0 <= sourceEnd ->
  let nb := Z.max 0 (Z.min (Z.min (sourceEnd - sourceStart)
                                  (byteLength target - targetStart))
                           (byteLength source - sourceStart)) in
  exists r,
    Buffer_copy source target targetStart sourceStart sourceEnd = Normal r /\
    length r = length target /\
    take (Z.to_nat targetStart) r = take (Z.to_nat targetStart) target /\
    take (Z.to_nat nb) (drop (Z.to_nat targetStart) r)
    = take (Z.to_nat nb) (drop (Z.to_nat sourceStart) source) /\
    drop (Z.to_nat (targetStart + nb)) r = drop (Z.to_nat (targetStart + nb)) target.
Proof.
  intros Ht Hs He nb.
  rewrite Buffer_copy_in_range by lia. cbv zeta. fold nb.
  assert (Hnb : 0 <= nb /\ nb <= byteLength target - targetStart
                /\ nb <= byteLength source - sourceStart)
    by (unfold nb; lia).
  clearbody nb. unfold byteLength in *.
  set (A := take (Z.to_nat targetStart) target).
  set (B := take (Z.to_nat nb) (drop (Z.to_nat sourceStart) source)).
  set (C := drop (Z.to_nat (targetStart + nb)) target).
  assert (HA : length A = Z.to_nat targetStart)
    by (unfold A; rewrite length_take; lia).
  assert (HB : length B = Z.to_nat nb)
    by (unfold B; rewrite length_take, length_drop; lia).
  assert (HC : length C = (length target - Z.to_nat (targetStart + nb))%nat)
    by (unfold C; by rewrite length_drop).
  eexists; split; [reflexivity|]. repeat split.
  - rewrite !length_app. lia.
  - by rewrite take_app_length'.
  - rewrite drop_app_length' by done. rewrite take_app_length' by done.
    done.
  - rewrite app_assoc. rewrite drop_app_length'; [done|].
    rewrite length_app. lia.
Qed.

(** The store of the sequence number leaves the rest of the header. *)
Lemma framed_Buffer_set_seq msgId n size chunk v :
  framed msgId n size chunk -> 12 <= size ->
  framed msgId n size (Buffer_set kOffsetSequenceNumber v chunk) /\
  Buffer_set kOffsetSequenceNumber v chunk !! kOffsetSequenceNumber = Some (ToUint8 v).
Proof.
  intros (Hlen & Hid & Hn) Hsize.
  unfold framed, Buffer_set, kOffsetSequenceNumber, kOffsetSequenceCount in *.
  unfold byteLength in *. repeat split.
  - unfold byteLength. by rewrite length_insert.
  - by rewrite take_insert_ge by lia.
  - by rewrite list_lookup_insert_ne by lia.
  - apply list_lookup_insert_eq. lia.
Qed.

(** So does whatever changes the payload only. *)
Lemma framed_take_12 msgId n size chunk chunk' :
  framed msgId n size chunk -> 12 <= size ->
  length chunk' = length chunk -> take 12 chunk' = take 12 chunk ->
  framed msgId n size chunk' /\
  chunk' !! kOffsetSequenceNumber = chunk !! kOffsetSequenceNumber.
Proof.
  intros (Hlen & Hid & Hn) Hsize Hlen' Htake.
  unfold framed, kOffsetSequenceCount, kOffsetSequenceNumber, byteLength in *.
  assert (Hlook : forall i, (i < 12)%nat -> chunk' !! i = chunk !! i).
  { intros i Hi. rewrite <- (lookup_take_lt chunk' 12 i), Htake by done.
    by apply lookup_take_lt. }
  repeat split.
  - unfold byteLength. lia.
  - rewrite <- Hid.
    replace 10%nat with (10 `min` 12)%nat by done.
    by rewrite <- !take_take, Htake.
  - rewrite Hlook by lia. done.
  - apply Hlook. lia.
Qed.

End Buffers.

(** *** One message through one buffer *)

Section SendSpec.
Variable t : UdpTransport.
Variables msg msgId : Buffer.
Variables numChunks chunkSize : Z.
Hypothesis Hsize : kChunkHeaderSize < chunkSize.

Let perChunk := chunkSize - kChunkHeaderSize.

Lemma fragments_nil stride : fragments t msg msgId numChunks chunkSize stride [].
Proof. intros i d Hd. by rewrite lookup_nil in Hd. Qed.

Lemma fragments_snoc stride frags d :
  fragments t msg msgId numChunks chunkSize stride frags ->
  fragment t msg msgId numChunks chunkSize stride (Z.of_nat (length frags)) d ->
  fragments t msg msgId numChunks chunkSize stride (frags ++ [d]).
Proof.
  intros Hfrags Hd i d' Hi.
  apply lookup_app_Some in Hi as [Hi | [Hlen Hi]]; [by apply Hfrags|].
  apply list_lookup_singleton_Some in Hi as [Hi ->].
  by replace i with (length frags) by lia.
Qed.

(** One call of [_send] on a framed chunk, with [k] fragments gone
    before and the rest of the message to send. *)
Lemma _send_framed chunk k w s :
  socket (transport w) = Some s -> transport w = t ->
  framed msgId numChunks chunkSize chunk ->
  0 <= k -> 0 < byteLength msg - k * perChunk ->
  exists chunk',
    _send msg chunk k (byteLength msg - k * perChunk) w
    = Normal {| transport := transport w;
                sent := sent w ++ [{| dg_bytes := chunk';
                                      dg_port := port (transport w);
                                      dg_host := host (transport w) |}];
                emitted := emitted w;
                pending := pending w ++
                  [{| cb_data := msg; cb_chunk := chunk'; cb_sequenceId := k;
                      cb_bytesToSend := byteLength msg - k * perChunk;
                      cb_bytesToCopy :=
                        Z.min (byteLength msg - k * perChunk) perChunk |}];
                sockets := sockets w; closed := closed w |} /\
    framed msgId numChunks chunkSize chunk' /\
    fragment t msg msgId numChunks chunkSize perChunk k
             {| dg_bytes := chunk'; dg_port := port (transport w);
                dg_host := host (transport w) |}.
Proof.
  intros Hsock Ht Hframed Hk Hrest. unfold kChunkHeaderSize in *.
  destruct (framed_Buffer_set_seq msgId numChunks chunkSize chunk k Hframed
              ltac:(lia)) as [Hframed' Hseq].
  set (chunk1 := Buffer_set kOffsetSequenceNumber k chunk) in *.
  assert (Hlen1 : byteLength chunk1 = chunkSize) by apply Hframed'.
  destruct (Buffer_copy_spec msg chunk1 (Z.of_nat kOffsetPayload)
              (byteLength msg - (byteLength msg - k * perChunk))
              (byteLength msg - (byteLength msg - k * perChunk)
               + Z.min (byteLength msg - k * perChunk)
                       (byteLength chunk1 - 12)))
    as (chunk' & Hcopy & Hlen' & Hhead & Hbody & _).
  { unfold kOffsetPayload. lia. }
  { unfold perChunk, kChunkHeaderSize in *. nia. }
  { unfold perChunk, kChunkHeaderSize in *. nia. }
  destruct (framed_take_12 msgId numChunks chunkSize chunk1 chunk' Hframed'
              ltac:(lia) Hlen' Hhead) as [Hframed'' Hseq'].
  exists chunk'. split; [|split; [done|]].
  - unfold _send. fold chunk1.
    assert (Hch : byteLength chunk = chunkSize) by apply Hframed.
    rewrite Hch. rewrite Hlen1 in Hcopy.
    unfold kChunkHeaderSize. simpl. unfold mbind, completion_bind.
    rewrite Hcopy. simpl. unfold socket_send. rewrite Hsock.
    unfold perChunk, kChunkHeaderSize. done.
  - repeat split; simpl; try (by rewrite Ht); try apply Hframed''.
    + by rewrite Hseq'.
    + unfold payload, kOffsetPayload, kChunkHeaderSize in *. simpl in Hbody.
      rewrite Hlen1 in Hbody.
      replace (byteLength msg - (byteLength msg - k * perChunk))
        with (k * perChunk) in Hbody by lia.
      fold perChunk.
      match goal with
      | H : take (Z.to_nat ?a) _ = _ |- take (Z.to_nat ?b) _ = _ =>
        replace b with a; [exact H|]
      end.
      unfold perChunk, byteLength in *. lia.
Qed.

End SendSpec.

Section Chain.
Variable w0 : World.
Variables msg msgId : Buffer.
Variables numChunks chunkSize : Z.
Variable s : ref.
Hypothesis Hsock : socket (transport w0) = Some s.
Hypothesis Hsize : kChunkHeaderSize < chunkSize.

Let perChunk := chunkSize - kChunkHeaderSize.

Hypothesis Hgeometry :
  (numChunks - 1) * perChunk < byteLength msg <= numChunks * perChunk.

Local Abbreviation in_flight' := (in_flight w0 msg msgId numChunks chunkSize).
Local Abbreviation settled' := (settled w0 msg msgId numChunks chunkSize perChunk).

(** The write of fragment [k] succeeds and more is left to send. *)
Lemma complete_next k w :
  in_flight' k w -> 0 <= k -> k + 1 < numChunks ->
  exists w', complete None w = Normal w' /\ in_flight' (k + 1) w'.
Proof.
  intros (Ht & He & Hs & Hc & frags & chunk & Hsent & Hlen & Hfrags & Hlast & Hframed & Hpend)
         Hk Hlt.
  fold perChunk in Hfrags, Hpend.
  assert (Hrest : 0 < byteLength msg - (k + 1) * perChunk).
  { unfold perChunk, kChunkHeaderSize in *. nia. }
  unfold complete. rewrite Hpend. unfold _send_callback. simpl.
  replace (byteLength msg - k * perChunk
           - Z.min (byteLength msg - k * perChunk) perChunk)
    with (byteLength msg - (k + 1) * perChunk) by lia.
  destruct (Z.ltb_spec 0 (byteLength msg - (k + 1) * perChunk)); [|lia].
  set (w1 := {| transport := transport w; sent := sent w; emitted := emitted w;
                pending := []; sockets := sockets w; closed := closed w |}).
  destruct (_send_framed (transport w0) msg msgId numChunks chunkSize Hsize
              chunk (k + 1) w1 s) as (chunk' & Hsend & Hframed' & Hfrag);
    [by rewrite <- Hsock, <- Ht | done | done | lia | done |].
  fold perChunk in Hsend, Hfrag.
  eexists. split; [exact Hsend|].
  split_and!; simpl; try done.
  exists (frags ++ [{| dg_bytes := chunk'; dg_port := port (transport w);
                       dg_host := host (transport w) |}]), chunk'.
  split_and!; try done.
  - by rewrite Hsent, app_assoc.
  - rewrite length_app. simpl. lia.
  - apply fragments_snoc; [done|].
    by replace (Z.of_nat (length frags)) with (k + 1) by lia.
  - rewrite map_app. simpl. by rewrite last_snoc.
Qed.

(** The write of the last fragment succeeds. *)
Lemma complete_last k w :
  in_flight' k w -> k + 1 = numChunks ->
  exists w', complete None w = Normal w' /\ settled' numChunks [] w'.
Proof.
  intros (Ht & He & Hs & Hc & frags & chunk & Hsent & Hlen & Hfrags & Hlast & Hframed & Hpend)
         Hk.
  fold perChunk in Hfrags, Hpend.
  unfold complete. rewrite Hpend. unfold _send_callback. simpl.
  destruct (Z.ltb_spec 0 (byteLength msg - k * perChunk
                          - Z.min (byteLength msg - k * perChunk) perChunk));
    [unfold perChunk, kChunkHeaderSize in *; nia|].
  eexists. split; [done|].
  split_and!; simpl; try done.
  - by rewrite He, app_nil_r.
  - exists frags. split_and!; [done | lia | done].
Qed.

(** The write of fragment [k] fails. *)
Lemma complete_failed k w c e :
  client (transport w0) = Some c ->
  in_flight' k w ->
  exists w', complete (Some e) w = Normal w' /\ settled' (k + 1) [e] w'.
Proof.
  intros Hclient
         (Ht & He & Hs & Hc & frags & chunk & Hsent & Hlen & Hfrags & Hlast & Hframed & Hpend).
  fold perChunk in Hfrags, Hpend.
  unfold complete. rewrite Hpend. unfold _send_callback, client_emit. simpl.
  rewrite Ht, Hclient.
  eexists. split; [done|].
  split_and!; simpl; try done.
  - by rewrite He.
  - by exists frags.
Qed.

(** Nothing is in flight: nothing completes. *)
Lemma complete_settled stride count errs err w :
  settled w0 msg msgId numChunks chunkSize stride count errs w ->
  complete err w = Normal w.
Proof.
  intros (_ & _ & _ & _ & Hpend & _). unfold complete. by rewrite Hpend.
Qed.

Lemma deliver_settled stride count errs outcomes w :
  settled w0 msg msgId numChunks chunkSize stride count errs w ->
  deliver outcomes w = Normal w.
Proof.
  intros Hw. induction outcomes as [|err outcomes IH]; [done|].
  simpl. rewrite (complete_settled _ _ _ _ _ Hw). exact IH.
Qed.

(** [j] writes in a row that succeed move the message [j] fragments
    on. *)
Lemma deliver_successes (j : nat) k w :
  in_flight' k w -> 0 <= k -> k + Z.of_nat j < numChunks ->
  exists w', deliver (replicate j None) w = Normal w' /\
             in_flight' (k + Z.of_nat j) w'.
Proof.
  revert k w. induction j as [|j IH]; intros k w Hw Hk Hlt.
  - exists w. split; [done|]. by rewrite Z.add_0_r.
  - destruct (complete_next k w Hw Hk ltac:(lia)) as (w1 & Hstep & Hw1).
    destruct (IH (k + 1) w1 Hw1 ltac:(lia) ltac:(lia)) as (w' & Hrun & Hw').
    exists w'. split.
    + simpl. rewrite Hstep. exact Hrun.
    + by replace (k + Z.of_nat (S j)) with (k + 1 + Z.of_nat j) by lia.
Qed.

End Chain.

(** *** [send] *)

Section Header.
Variables msgId : Buffer.
Variables numChunks chunkSize : Z.
Hypothesis Hsize : kChunkHeaderSize < chunkSize.
Hypothesis HmsgId : length msgId = 8%nat.

(** The stores that both branches of [send] start a buffer with. *)
Lemma header_framed buf :
  byteLength buf = chunkSize ->
  exists buf',
    Buffer_copy msgId
      (Buffer_set kOffsetMagicByte1 kMagicByte1
         (Buffer_set kOffsetMagicByte0 kMagicByte0 buf))
      (Z.of_nat kOffsetMessageId) 0 (byteLength msgId) = Normal buf' /\
    framed msgId numChunks chunkSize
           (Buffer_set kOffsetSequenceCount numChunks buf').
Proof.
  intros Hlen. unfold kChunkHeaderSize in *.
  set (buf2 := Buffer_set kOffsetMagicByte1 kMagicByte1
                 (Buffer_set kOffsetMagicByte0 kMagicByte0 buf)).
  assert (Hlen2 : byteLength buf2 = chunkSize)
    by (unfold buf2; by rewrite !byteLength_Buffer_set).
  assert (Htake2 : take 2 buf2 = [ToUint8 kMagicByte0; ToUint8 kMagicByte1]).
  { unfold buf2, Buffer_set, byteLength in *.
    destruct buf as [|b0 [|b1 rest]]; simpl in *; try lia. done. }
  destruct (Buffer_copy_spec msgId buf2 (Z.of_nat kOffsetMessageId) 0
              (byteLength msgId))
    as (buf' & Hcopy & Hlen' & Hhead & Hbody & _);
    [unfold kOffsetMessageId, byteLength in *; lia ..|].
  exists buf'. split; [done|].
  unfold kOffsetMessageId, byteLength in *. rewrite HmsgId in Hbody.
  replace (Z.to_nat (0 `max` (((Z.of_nat 8 - 0) `min`
             (Z.of_nat (length buf2) - Z.of_nat 2)) `min` (Z.of_nat 8 - 0))))
    with 8%nat in Hbody by lia.
  change (Z.to_nat (Z.of_nat 2)) with 2%nat in Hhead, Hbody.
  change (Z.to_nat 0) with 0%nat in Hbody. rewrite drop_0 in Hbody.
  rewrite (take_ge msgId) in Hbody by lia.
  unfold framed, Buffer_set, kOffsetSequenceCount. split_and!.
  - unfold byteLength. rewrite length_insert. lia.
  - rewrite take_insert_ge by lia.
    change 10%nat with (2 + 8)%nat.
    rewrite <- (take_take_drop buf' 2 8), Hhead, Htake2, Hbody. done.
  - apply list_lookup_insert_eq. lia.
Qed.

End Header.

Section Send.
Variable h : Host.
Variable message : value.
Variable w0 : World.
Variable s : ref.

Let this := transport w0.
Let msg := serialize h this message.
Let maxDataPerChunk := bufferSize this - kChunkHeaderSize.
Let numChunks := Math_ceil_div (byteLength msg) maxDataPerChunk.
Let chunkSize :=
  Math_ceil_div (byteLength msg + numChunks * kChunkHeaderSize) numChunks.
Let msgId := randomBytes h kMessageIdBytes.

Hypothesis Hsock : socket this = Some s.
Hypothesis Hbuf : kChunkHeaderSize < bufferSize this.

(** The message fits the buffer. *)
Lemma send_unchunked :
  byteLength msg <= bufferSize this ->
  send h message w0
  = Normal {| transport := this;
              sent := sent w0 ++ [{| dg_bytes := msg; dg_port := port this;
                                     dg_host := host this |}];
              emitted := emitted w0; pending := pending w0;
              sockets := sockets w0; closed := closed w0 |}.
Proof.
  intros Hle. unfold send. fold this msg.
  destruct (Z.leb_spec (byteLength msg) (bufferSize this)); [|lia].
  unfold socket_send. fold this. rewrite Hsock. by rewrite app_nil_r.
Qed.

(** The message makes more chunks than the protocol has numbers for. *)
Lemma send_too_large c :
  client this = Some c ->
  bufferSize this < byteLength msg -> kMaxChunks < numChunks ->
  send h message w0
  = Normal {| transport := this; sent := sent w0;
              emitted := emitted w0 ++ [Error "message too large"];
              pending := pending w0;
              sockets := sockets w0; closed := closed w0 |}.
Proof.
  intros Hclient Hlong Hmany. unfold send. fold this msg maxDataPerChunk numChunks.
  destruct (Z.leb_spec (byteLength msg) (bufferSize this)); [lia|].
  destruct (Z.ltb_spec kMaxChunks numChunks); [|lia].
  unfold client_emit. fold this. by rewrite Hclient.
Qed.

Hypothesis Hlong : bufferSize this < byteLength msg.
Hypothesis Hfew : numChunks <= kMaxChunks.
Hypothesis Hidle : pending w0 = [].

Lemma chunkSize_header : kChunkHeaderSize < chunkSize.
Proof.
  pose proof (perChunk_bounds (bufferSize this) (byteLength msg) Hbuf Hlong)
    as [[H _] _].
  fold maxDataPerChunk numChunks chunkSize in H. lia.
Qed.

(** [send] when the buffer is reused: fragment 0 is dispatched and its
    write is in flight. *)
Lemma send_reusing :
  reuseBuffer this = true ->
  exists w1, send h message w0 = Normal w1 /\
             in_flight w0 msg msgId numChunks chunkSize 0 w1.
Proof.
  intros Hreuse. unfold send. fold this msg maxDataPerChunk numChunks chunkSize msgId.
  destruct (Z.leb_spec (byteLength msg) (bufferSize this)); [lia|].
  destruct (Z.ltb_spec kMaxChunks numChunks); [lia|].
  rewrite Hreuse.
  pose proof chunkSize_header as Hsize.
  destruct (header_framed msgId numChunks chunkSize Hsize
              (length_randomBytes h kMessageIdBytes)
              (allocUnsafe h 0 chunkSize)) as (buf' & Hcopy & Hframed).
  { unfold byteLength. rewrite length_allocUnsafe.
    unfold kChunkHeaderSize in *. lia. }
  simpl. unfold mbind, completion_bind. rewrite Hcopy. simpl.
  destruct (_send_framed this msg msgId numChunks chunkSize Hsize
              (Buffer_set kOffsetSequenceCount numChunks buf') 0 w0 s)
    as (chunk' & Hsend & Hframed' & Hfrag); try done.
  { unfold kChunkHeaderSize in *. lia. }
  rewrite Z.mul_0_l, Z.sub_0_r in Hsend.
  eexists. split; [exact Hsend|].
  unfold in_flight. simpl. split_and!; try done.
  exists [{| dg_bytes := chunk'; dg_port := port this; dg_host := host this |}], chunk'.
  rewrite Hidle, Z.mul_0_l, Z.sub_0_r. split_and!; try done.
  intros [|i] d Hd; simpl in Hd; [|by rewrite lookup_nil in Hd].
  by injection Hd as <-.
Qed.

End Send.

(** *** One buffer for each fragment *)

Section Loop.
Variable h : Host.
Variable t : UdpTransport.
Variables msg msgId : Buffer.
Variables maxDataPerChunk numChunks chunkSize : Z.
Variable s : ref.
Hypothesis Hsock : socket t = Some s.
Hypothesis Hsize : kChunkHeaderSize < chunkSize.
Hypothesis HmsgId : length msgId = 8%nat.
Hypothesis Hstride : 0 < maxDataPerChunk.
Hypothesis Hgeometry : (numChunks - 1) * maxDataPerChunk < byteLength msg.

(** One turn of the loop of the branch that does not reuse the
    buffer. *)
Lemma send_fragment_spec i w :
  transport w = t -> 0 <= i < numChunks ->
  exists d,
    send_fragment h msg msgId maxDataPerChunk numChunks chunkSize i w
    = Normal {| transport := transport w; sent := sent w ++ [d];
                emitted := emitted w; pending := pending w;
                sockets := sockets w; closed := closed w |} /\
    fragment t msg msgId numChunks chunkSize maxDataPerChunk i d.
Proof.
  intros Ht Hi. unfold send_fragment.
  destruct (header_framed msgId numChunks chunkSize Hsize HmsgId
              (allocUnsafe h (Z.to_nat i) chunkSize)) as (buf' & Hcopy & Hframed).
  { unfold byteLength. rewrite length_allocUnsafe.
    unfold kChunkHeaderSize in *. lia. }
  simpl. unfold mbind, completion_bind. rewrite Hcopy. simpl.
  destruct (framed_Buffer_set_seq msgId numChunks chunkSize _ i Hframed
              ltac:(unfold kChunkHeaderSize in *; lia)) as [Hframed1 Hseq].
  set (buf1 := Buffer_set kOffsetSequenceNumber i
                 (Buffer_set kOffsetSequenceCount numChunks buf')) in *.
  assert (Hlen1 : byteLength buf1 = chunkSize) by apply Hframed1.
  assert (Hstart : 0 <= i * maxDataPerChunk < byteLength msg) by nia.
  destruct (Buffer_copy_spec msg buf1 (Z.of_nat kOffsetPayload)
              (i * maxDataPerChunk)
              (Z.min (byteLength msg) (i * maxDataPerChunk + maxDataPerChunk)))
    as (buf2 & Hcopy2 & Hlen2 & Hhead & Hbody & _).
  { unfold kOffsetPayload, kChunkHeaderSize in *. lia. }
  { lia. }
  { lia. }
  destruct (framed_take_12 msgId numChunks chunkSize buf1 buf2 Hframed1
              ltac:(unfold kChunkHeaderSize in *; lia) Hlen2 Hhead)
    as [Hframed2 Hseq2].
  rewrite Hcopy2. simpl. unfold socket_send. rewrite Ht, Hsock.
  eexists. split; [by rewrite app_nil_r|].
  unfold fragment. simpl. split_and!; try done.
  - by rewrite Hseq2.
  - unfold payload, kOffsetPayload, kChunkHeaderSize in *.
    change (Z.to_nat (Z.of_nat 12)) with 12%nat in Hbody.
    rewrite Hlen1 in Hbody.
    match goal with
    | H : take (Z.to_nat ?a) _ = _ |- take (Z.to_nat ?b) _ = _ =>
      replace b with a; [exact H|]
    end.
    lia.
Qed.

Lemma for_loop_fragments w0 (count : nat) i w :
  transport w0 = t ->
  settled w0 msg msgId numChunks chunkSize maxDataPerChunk i [] w ->
  0 <= i -> i + Z.of_nat count <= numChunks ->
  exists w',
    for_loop count i
      (send_fragment h msg msgId maxDataPerChunk numChunks chunkSize) w
    = Normal w' /\
    settled w0 msg msgId numChunks chunkSize maxDataPerChunk
            (i + Z.of_nat count) [] w'.
Proof.
  intros Ht0. revert i w. induction count as [|count IH]; intros i w Hw Hi Hle.
  - exists w. split; [done|]. by rewrite Z.add_0_r.
  - destruct Hw as (Ht & He & Hs & Hc & Hpend & frags & Hsent & Hlen & Hfrags).
    destruct (send_fragment_spec i w ltac:(congruence) ltac:(lia))
      as (d & Hsend & Hd).
    simpl. unfold mbind, completion_bind. rewrite Hsend. simpl.
    match goal with
    | |- context [for_loop count (i + 1) ?body ?w1] =>
      destruct (IH (i + 1) w1) as (w' & Hrun & Hw')
    end.
    + unfold settled. simpl. split_and!; try done.
      exists (frags ++ [d]). split_and!.
      * by rewrite Hsent, app_assoc.
      * rewrite length_app. simpl. lia.
      * rewrite Ht0. apply fragments_snoc; [by rewrite <- Ht0|].
        by replace (Z.of_nat (length frags)) with i by lia.
    + lia.
    + lia.
    + exists w'. split; [done|].
      by replace (i + Z.of_nat (S count)) with (i + 1 + Z.of_nat count) by lia.
Qed.

End Loop.

(** *** What a receiver puts together *)

Section Reassembly.

(** Payloads of [per] bytes each, the i-th of which starts with the
    bytes of the message from [off + i * per] on, as many as are left of
    it: put together, they start with the message from [off] on. *)
Lemma concat_payloads (msg : Buffer) (per : nat) (payloads : list Buffer) :
  forall off : nat,
  (0 < per)%nat ->
  (forall i p, payloads !! i = Some p ->
     length p = per /\
     take (per `min` (length msg - (off + i * per))) p
     = take (per `min` (length msg - (off + i * per)))
            (drop (off + i * per) msg)) ->
  take (length msg - off) (concat payloads)
  = take (length payloads * per) (drop off msg).
Proof.
  induction payloads as [|p payloads IH]; intros off Hper Hp.
  - simpl. by rewrite take_nil, take_0.
  - destruct (Hp 0%nat p eq_refl) as [Hlen Hhead].
    rewrite Nat.mul_0_l, Nat.add_0_r in Hhead.
    assert (Hrest : forall i q, payloads !! i = Some q ->
              length q = per /\
              take (per `min` (length msg - (off + per + i * per))) q
              = take (per `min` (length msg - (off + per + i * per)))
                     (drop (off + per + i * per) msg)).
    { intros i q Hq. destruct (Hp (S i) q Hq) as [Hl Hq'].
      split; [done|].
      by replace (off + per + i * per)%nat with (off + S i * per)%nat by lia. }
    specialize (IH (off + per)%nat Hper Hrest).
    simpl concat. simpl length.
    destruct (decide (length msg - off <= per)%nat) as [Hshort|Hlong].
    + rewrite take_app_le by lia.
      rewrite Nat.min_r in Hhead by lia. rewrite Hhead.
      rewrite (take_ge (drop off msg)) by (rewrite length_drop; lia).
      rewrite (take_ge (drop off msg)) by (rewrite length_drop; lia).
      done.
    + rewrite Nat.min_l in Hhead by lia.
      rewrite (take_ge p) in Hhead by lia.
      rewrite take_app_ge by lia. rewrite Hlen.
      replace (length msg - off - per)%nat with (length msg - (off + per))%nat
        by lia.
      rewrite IH, Hhead.
      replace (S (length payloads) * per)%nat
        with (per + length payloads * per)%nat by lia.
      rewrite <- take_take_drop, drop_drop. done.
Qed.

(** The payloads of fragments that start in the message as far apart
    as they are long. *)
Lemma fragments_payloads t msg msgId numChunks chunkSize frags :
  kChunkHeaderSize < chunkSize ->
  fragments t msg msgId numChunks chunkSize (chunkSize - kChunkHeaderSize) frags ->
  forall i p,
    map (fun d => payload (dg_bytes d)) frags !! i = Some p ->
    let per := Z.to_nat (chunkSize - kChunkHeaderSize) in
    length p = per /\
    take (per `min` (length msg - (0 + i * per))) p
    = take (per `min` (length msg - (0 + i * per))) (drop (0 + i * per) msg).
Proof.
  intros Hsize Hfrags i p Hp per.
  rewrite list_lookup_fmap in Hp.
  destruct (frags !! i) as [d|] eqn:Hd; [|done].
  injection Hp as <-.
  destruct (Hfrags i d Hd) as (_ & _ & (Hlen & _) & _ & Hbody).
  unfold payload, kOffsetPayload, kChunkHeaderSize, byteLength in *.
  split.
  - rewrite length_drop. unfold per. lia.
  - cbv zeta in Hbody.
    match goal with
    | H : take ?a _ = take _ (drop ?b _) |- take ?a' _ = take _ (drop ?b' _) =>
      replace a' with a by (unfold per; nia);
      replace b' with b by (unfold per; nia)
    end.
    exact Hbody.
Qed.

(** When the payloads start in the message as far apart as they are
    long, the datagrams put together start with the message, and go on
    for as many bytes as the chunks have room for. *)
Lemma reassemble_prefix t msg msgId numChunks chunkSize frags :
  kChunkHeaderSize < chunkSize ->
  byteLength msg <= numChunks * (chunkSize - kChunkHeaderSize) ->
  Z.of_nat (length frags) = numChunks ->
  fragments t msg msgId numChunks chunkSize (chunkSize - kChunkHeaderSize) frags ->
  take (length msg) (reassemble frags) = msg /\
  Z.of_nat (length (reassemble frags))
  = numChunks * (chunkSize - kChunkHeaderSize).
Proof.
  intros Hsize Hroom Hcount Hfrags.
  pose proof (fragments_payloads t msg msgId numChunks chunkSize frags Hsize
                Hfrags) as Hpayloads.
  cbv zeta in Hpayloads.
  set (per := Z.to_nat (chunkSize - kChunkHeaderSize)) in *.
  assert (Hper : (0 < per)%nat) by (unfold per; lia).
  pose proof (concat_payloads msg per _ 0%nat Hper Hpayloads) as Hconcat.
  rewrite Nat.sub_0_r, drop_0, length_map in Hconcat.
  unfold reassemble. split.
  - rewrite Hconcat. apply take_ge. unfold byteLength, per in *. nia.
  - assert (Hlens : forall ps : list Buffer,
              (forall i p, ps !! i = Some p -> length p = per) ->
              length (concat ps) = (length ps * per)%nat).
    { induction ps as [|p ps IHps]; intros Hall; [done|].
      simpl. rewrite length_app, (Hall 0%nat p eq_refl), IHps; [lia|].
      intros i q Hq. exact (Hall (S i) q Hq). }
    rewrite Hlens, length_map.
    + unfold per. nia.
    + intros i p Hp. by destruct (Hpayloads i p Hp).
Qed.

End Reassembly.

(** *** A message that is chunked, from [send] to the last completion *)

Section Chunked.
Variable h : Host.
Variable message : value.
Variable w0 : World.
Variable s : ref.

Let this := transport w0.
Let msg := serialize h this message.
Let maxDataPerChunk := bufferSize this - kChunkHeaderSize.
Let numChunks := Math_ceil_div (byteLength msg) maxDataPerChunk.
Let chunkSize :=
  Math_ceil_div (byteLength msg + numChunks * kChunkHeaderSize) numChunks.
Let perChunk := chunkSize - kChunkHeaderSize.
Let msgId := randomBytes h kMessageIdBytes.

(** How far apart the payloads of two fragments start in the message:
    the branch that reuses the buffer steps by what the buffer holds,
    the other by [maxDataPerChunk]. *)
Let stride := if reuseBuffer this then perChunk else maxDataPerChunk.

Hypothesis Hsock : socket this = Some s.
Hypothesis Hbuf : kChunkHeaderSize < bufferSize this.
Hypothesis Hlong : bufferSize this < byteLength msg.
Hypothesis Hfew : numChunks <= kMaxChunks.
Hypothesis Hidle : pending w0 = [].

Local Abbreviation in_flight' := (in_flight w0 msg msgId numChunks chunkSize).
Local Abbreviation settled' := (settled w0 msg msgId numChunks chunkSize stride).

(** The arithmetic above, at this message. *)
Lemma chunk_geometry :
  2 <= numChunks /\ kChunkHeaderSize < chunkSize <= bufferSize this /\
  0 < maxDataPerChunk /\
  (numChunks - 1) * maxDataPerChunk < byteLength msg /\
  (numChunks - 1) * perChunk < byteLength msg <= numChunks * perChunk.
Proof.
  pose proof (numChunks_bounds (bufferSize this) (byteLength msg) Hbuf Hlong)
    as H1.
  pose proof (perChunk_bounds (bufferSize this) (byteLength msg) Hbuf Hlong)
    as H2.
  cbv zeta in H1, H2.
  fold maxDataPerChunk in H1, H2. fold numChunks in H1, H2.
  fold chunkSize in H2. fold perChunk in H2.
  unfold perChunk, maxDataPerChunk in *. lia.
Qed.

(** [send] when the buffer is not reused: all the fragments are
    dispatched at once and nothing is left in flight. *)
Lemma send_copying :
  reuseBuffer this = false ->
  exists w1, send h message w0 = Normal w1 /\ settled' numChunks [] w1.
Proof.
  intros Hreuse. unfold send.
  fold this msg maxDataPerChunk numChunks chunkSize msgId.
  destruct (Z.leb_spec (byteLength msg) (bufferSize this)); [lia|].
  destruct (Z.ltb_spec kMaxChunks numChunks); [lia|].
  rewrite Hreuse.
  pose proof chunk_geometry as (Hn & Hsize & Hm & Hgeo & _).
  destruct (for_loop_fragments h this msg msgId maxDataPerChunk numChunks
              chunkSize s Hsock ltac:(lia)
              (length_randomBytes h kMessageIdBytes) Hm Hgeo
              w0 (Z.to_nat numChunks) 0 w0 eq_refl)
    as (w1 & Hrun & Hw1); [| lia | lia |].
  - unfold settled. split_and!; try done; [by rewrite app_nil_r|].
    exists []. split_and!; [by rewrite app_nil_r | done |].
    apply fragments_nil.
  - exists w1. split; [done|].
    unfold stride. rewrite Hreuse.
    by replace (0 + Z.of_nat (Z.to_nat numChunks)) with numChunks in Hw1 by lia.
Qed.

Lemma deliver_app outcomes1 outcomes2 (w : World) :
  deliver (outcomes1 ++ outcomes2) w
  = w' ← deliver outcomes1 w; deliver outcomes2 w'.
Proof.
  revert w. induction outcomes1 as [|err outcomes1 IH]; intros w; [done|].
  simpl. destruct (complete err w); simpl; [apply IH | done].
Qed.

(** The writes that succeed one after the other, in the branch that
    reuses the buffer. *)
Lemma deliver_in_flight w1 (j : nat) :
  reuseBuffer this = true ->
  in_flight' 0 w1 -> Z.of_nat j < numChunks ->
  exists w', deliver (replicate j None) w1 = Normal w' /\
             in_flight' (Z.of_nat j) w'.
Proof.
  intros Hreuse Hw1 Hj.
  pose proof chunk_geometry as (Hn & Hsize & Hm & _ & Hgeo).
  destruct (deliver_successes w0 msg msgId numChunks chunkSize s Hsock
              ltac:(lia) Hgeo j 0 w1 Hw1 ltac:(lia) ltac:(lia))
    as (w' & Hrun & Hw').
  by exists w'.
Qed.

(** As many writes succeed as there are chunks. *)
Lemma deliver_all w1 :
  reuseBuffer this = true -> in_flight' 0 w1 ->
  exists w', deliver (replicate (Z.to_nat numChunks) None) w1 = Normal w' /\
             settled' numChunks [] w'.
Proof.
  intros Hreuse Hw1.
  pose proof chunk_geometry as (Hn & Hsize & Hm & _ & Hgeo).
  destruct (deliver_in_flight w1 (Z.to_nat (numChunks - 1)) Hreuse Hw1
              ltac:(lia)) as (w2 & Hrun & Hw2).
  destruct (complete_last w0 msg msgId numChunks chunkSize ltac:(lia) Hgeo
              (Z.of_nat (Z.to_nat (numChunks - 1))) w2 Hw2 ltac:(lia))
    as (w' & Hstep & Hw').
  exists w'. split.
  - replace (Z.to_nat numChunks) with (Z.to_nat (numChunks - 1) + 1)%nat by lia.
    rewrite replicate_add, deliver_app, Hrun. simpl.
    by rewrite Hstep.
  - unfold stride. by rewrite Hreuse.
Qed.

(** [j] writes succeed and the next fails. *)
Lemma deliver_failure w1 (j : nat) e rest c :
  client this = Some c ->
  reuseBuffer this = true -> in_flight' 0 w1 -> Z.of_nat j < numChunks ->
  exists w', deliver (replicate j None ++ Some e :: rest) w1 = Normal w' /\
             settled' (Z.of_nat j + 1) [e] w'.
Proof.
  intros Hclient Hreuse Hw1 Hj.
  destruct (deliver_in_flight w1 j Hreuse Hw1 Hj) as (w2 & Hrun & Hw2).
  destruct (complete_failed w0 msg msgId numChunks chunkSize
              (Z.of_nat j) w2 c e Hclient Hw2) as (w' & Hstep & Hw').
  exists w'. split.
  - rewrite deliver_app, Hrun. simpl. rewrite Hstep. simpl.
    eapply deliver_settled, Hw'.
  - unfold stride. by rewrite Hreuse.
Qed.

(** Every write of the message succeeds: all of it is dispatched, in
    either branch. *)
Lemma send_all :
  exists w', (w1 ← send h message w0;
              deliver (replicate (Z.to_nat numChunks) None) w1) = Normal w' /\
             settled' numChunks [] w'.
Proof.
  assert (reuseBuffer this = true \/ reuseBuffer this = false) as [Hreuse|Hreuse]
    by (destruct (reuseBuffer this); auto).
  - destruct (send_reusing h message w0 s Hsock Hbuf Hlong Hfew Hidle Hreuse)
      as (w1 & Hsend & Hw1).
    destruct (deliver_all w1 Hreuse Hw1) as (w' & Hrun & Hw').
    exists w'. split; [|done]. rewrite Hsend. exact Hrun.
  - destruct (send_copying Hreuse) as (w1 & Hsend & Hw1).
    exists w1. split; [|done]. rewrite Hsend. simpl.
    eapply deliver_settled, Hw1.
Qed.

(** Whatever becomes of the writes, the datagrams dispatched for the
    message are fragments of it. *)
Lemma send_any outcomes c :
  client this = Some c ->
  exists w' frags,
    (w1 ← send h message w0; deliver outcomes w1) = Normal w' /\
    sent w' = sent w0 ++ frags /\
    fragments this msg msgId numChunks chunkSize stride frags.
Proof.
  intros Hclient.
  pose proof chunk_geometry as (Hn & Hsize & Hm & _ & Hgeo).
  assert (reuseBuffer this = true \/ reuseBuffer this = false) as [Hreuse|Hreuse]
    by (destruct (reuseBuffer this); auto).
  - destruct (send_reusing h message w0 s Hsock Hbuf Hlong Hfew Hidle Hreuse)
      as (w1 & Hsend & Hw1).
    rewrite Hsend. simpl.
    assert (Hinv : exists k, 0 <= k < numChunks /\ in_flight' k w1)
      by (exists 0; split; [lia|done]).
    clear Hsend Hw1. revert w1 Hinv.
    induction outcomes as [|err outcomes IH]; intros w1 (k & Hk & Hw1).
    + destruct Hw1 as (_ & _ & _ & _ & frags & chunk & Hsent & _ & Hfrags & _).
      exists w1, frags. unfold stride. by rewrite Hreuse.
    + simpl. destruct err as [e|].
      * destruct (complete_failed w0 msg msgId numChunks chunkSize
                    k w1 c e Hclient Hw1) as (w2 & Hstep & Hw2).
        rewrite Hstep. simpl. rewrite (deliver_settled _ _ _ _ _ _ _ _ _ _ Hw2).
        destruct Hw2 as (_ & _ & _ & _ & _ & frags & Hsent & _ & Hfrags).
        exists w2, frags. unfold stride. by rewrite Hreuse.
      * destruct (decide (k + 1 < numChunks)) as [Hlt|Hge].
        -- destruct (complete_next w0 msg msgId numChunks chunkSize s Hsock
                       ltac:(lia) Hgeo k w1 Hw1 ltac:(lia) Hlt)
             as (w2 & Hstep & Hw2).
           rewrite Hstep. simpl. apply IH. exists (k + 1). split; [lia|done].
        -- destruct (complete_last w0 msg msgId numChunks chunkSize ltac:(lia) Hgeo
                       k w1 Hw1 ltac:(lia)) as (w2 & Hstep & Hw2).
           rewrite Hstep. simpl.
           rewrite (deliver_settled _ _ _ _ _ _ _ _ _ _ Hw2).
           destruct Hw2 as (_ & _ & _ & _ & _ & frags & Hsent & _ & Hfrags).
           exists w2, frags. unfold stride. by rewrite Hreuse.
  - destruct (send_copying Hreuse) as (w1 & Hsend & Hw1).
    rewrite Hsend. simpl. rewrite (deliver_settled _ _ _ _ _ _ _ _ _ _ Hw1).
    destruct Hw1 as (_ & _ & _ & _ & _ & frags & Hsent & _ & Hfrags).
    by exists w1, frags.
Qed.

(** Every write succeeds, and the payloads start in the message as far
    apart as they are long, which they do when the buffer is reused and,
    when it is not, if the chunks are as large as [bufferSize] allows:
    the datagrams put together start with the message, and go on to the
    end of the last chunk. *)
Lemma reassembly_starts_with_message :
  reuseBuffer this = true \/ perChunk = maxDataPerChunk ->
  exists w' frags,
    (w1 ← send h message w0;
     deliver (replicate (Z.to_nat numChunks) None) w1) = Normal w' /\
    sent w' = sent w0 ++ frags /\
    take (length msg) (reassemble frags) = msg /\
    Z.of_nat (length (reassemble frags)) = numChunks * perChunk.
Proof.
  intros Hstride.
  destruct send_all
    as (w' & Hrun & _ & _ & _ & _ & _ & frags & Hsent & Hlen & Hfrags).
  pose proof chunk_geometry as (Hn & Hsize & Hm & _ & Hgeo).
  assert (Hs : stride = perChunk).
  { unfold stride. destruct Hstride as [-> | ->]; [done|].
    by destruct (reuseBuffer this). }
  rewrite Hs in Hfrags.
  destruct (reassemble_prefix this msg msgId numChunks chunkSize frags
              ltac:(lia) ltac:(fold perChunk; lia) Hlen Hfrags) as [Htake Hlength].
  by exists w', frags.
Qed.

(** When the message fills every chunk, the datagrams put together are
    the message, in either mode. *)
Lemma reassembly_exact_when_chunks_are_full :
  byteLength msg = numChunks * maxDataPerChunk ->
  exists w' frags,
    (w1 ← send h message w0;
     deliver (replicate (Z.to_nat numChunks) None) w1) = Normal w' /\
    sent w' = sent w0 ++ frags /\
    reassemble frags = msg.
Proof.
  intros Hfull.
  pose proof chunk_geometry as (Hn & Hsize & Hm & _ & Hgeo).
  assert (Hper : perChunk = maxDataPerChunk).
  { unfold perChunk, maxDataPerChunk, kChunkHeaderSize in *. nia. }
  destruct (reassembly_starts_with_message (or_intror Hper))
    as (w' & frags & Hrun & Hsent & Htake & Hlength).
  exists w', frags. split_and!; try done.
  transitivity (take (length msg) (reassemble frags)); [|exact Htake].
  symmetry. apply take_ge. unfold byteLength in *. lia.
Qed.

End Chunked.

(** *** The properties of chunking *)

Section Reading.

(** What a receiver reads in the header of a fragment. *)
Lemma fragment_fields t msg msgId numChunks chunkSize stride i d :
  fragment t msg msgId numChunks chunkSize stride i d ->
  length msgId = 8%nat -> 0 <= i < 256 -> 0 <= numChunks < 256 ->
  byteLength (dg_bytes d) = chunkSize /\
  magic (dg_bytes d) = [x1e; x0f] /\
  MessageID (dg_bytes d) = msgId /\
  SequenceNumber (dg_bytes d) = Some i /\
  SequenceCount (dg_bytes d) = Some numChunks.
Proof.
  intros (_ & _ & (Hlen & Hid & Hcount) & Hseq & _) HmsgId Hi Hn.
  split_and!.
  - done.
  - unfold magic. change 2%nat with (2 `min` 10)%nat.
    by rewrite <- take_take, Hid.
  - unfold MessageID, kMessageIdBytes, kOffsetMessageId.
    change (Z.to_nat 8) with 8%nat.
    rewrite take_drop_commute. change (2 + 8)%nat with 10%nat.
    rewrite Hid. simpl. done.
  - unfold SequenceNumber, byte_at. rewrite Hseq. simpl.
    by rewrite ToUint8_value.
  - unfold SequenceCount, byte_at. rewrite Hcount. simpl.
    by rewrite ToUint8_value.
Qed.

End Reading.

(** C3. For a message that is chunked, in either mode of [reuseBuffer]
    and with every write succeeding, the fragments dispatched all carry
    the magic bytes [0x1e 0x0f] at offsets 0 and 1, the same eight random
    bytes at offsets 2 to 9 and the same count, the number of chunks, at
    offset 11; there are as many fragments as the count says, and the
    byte at offset 10 of the i-th one is [i], so that the sequence
    numbers are exactly 0, ..., count - 1. *)
Theorem C3_fragments_share_header_and_count
        (h : Host) (message : value) (w0 : World) (s : ref) :
  let this := transport w0 in
  let msg := serialize h this message in
  let numChunks :=
    Math_ceil_div (byteLength msg) (bufferSize this - kChunkHeaderSize) in
  socket this = Some s ->
  kChunkHeaderSize < bufferSize this ->
  pending w0 = [] ->
  bufferSize this < byteLength msg ->
  numChunks <= kMaxChunks ->
  exists w' frags,
    (w1 ← send h message w0;
     deliver (replicate (Z.to_nat numChunks) None) w1) = Normal w' /\
    pending w' = [] /\
    sent w' = sent w0 ++ frags /\
    Z.of_nat (length frags) = numChunks /\
    forall (i : nat) d, frags !! i = Some d ->
      magic (dg_bytes d) = [x1e; x0f] /\
      MessageID (dg_bytes d) = randomBytes h kMessageIdBytes /\
      SequenceNumber (dg_bytes d) = Some (Z.of_nat i) /\
      SequenceCount (dg_bytes d) = Some numChunks.
Proof.
  intros this msg numChunks Hsock Hbuf Hidle Hlong Hfew.
  destruct (send_all h message w0 s Hsock Hbuf Hlong Hfew Hidle)
    as (w' & Hrun & _ & _ & _ & _ & Hpend & frags & Hsent & Hlen & Hfrags).
  pose proof (chunk_geometry h message w0 Hbuf Hlong) as (Hn & _).
  exists w', frags. split_and!; try done.
  intros i d Hd.
  assert (Hi : (i < length frags)%nat) by (eapply lookup_lt_Some, Hd).
  destruct (fragment_fields _ _ _ _ _ _ _ _ (Hfrags i d Hd)
              (length_randomBytes h kMessageIdBytes))
    as (_ & Hmagic & Hid & Hseq & Hcount);
    [unfold kMaxChunks in *; fold this msg numChunks in Hn, Hlen |- *; lia ..|].
  done.
Qed.

(** C3 at the chunked case of the tests: a buffer of 13 bytes and the 14
    bytes of ['x'.repeat(12)]. *)
Lemma C3_witness :
  exists w' frags,
    (w1 ← send Fixture.host Fixture.x12 (Fixture.udp 13 true);
     deliver (replicate 14 None) w1) = Normal w' /\
    pending w' = [] /\
    sent w' = sent (Fixture.udp 13 true) ++ frags /\
    Z.of_nat (length frags) = 14 /\
    forall (i : nat) d, frags !! i = Some d ->
      magic (dg_bytes d) = [x1e; x0f] /\
      MessageID (dg_bytes d) = randomBytes Fixture.host kMessageIdBytes /\
      SequenceNumber (dg_bytes d) = Some (Z.of_nat i) /\
      SequenceCount (dg_bytes d) = Some 14.
Proof.
  apply (C3_fragments_share_header_and_count
           Fixture.host Fixture.x12 (Fixture.udp 13 true) (Ref 0));
    vm_compute; first [reflexivity | discriminate].
Defined.

(** C4. For a message that is chunked, the size of the chunk buffer,
    [chunkSize = Math.ceil((byteLength + numChunks * 12) / numChunks)],
    is the ceiling of that quotient and is at most [bufferSize]; every
    datagram dispatched for the message, in either mode and whatever
    becomes of the writes, is exactly [chunkSize] bytes long. *)
Theorem C4_chunk_size_within_bufferSize
        (h : Host) (message : value) (w0 : World) (s c : ref)
        (outcomes : list (option exn)) :
  let this := transport w0 in
  let msg := serialize h this message in
  let numChunks :=
    Math_ceil_div (byteLength msg) (bufferSize this - kChunkHeaderSize) in
  let chunkSize :=
    Math_ceil_div (byteLength msg + numChunks * kChunkHeaderSize) numChunks in
  socket this = Some s ->
  client this = Some c ->
  kChunkHeaderSize < bufferSize this ->
  pending w0 = [] ->
  bufferSize this < byteLength msg ->
  numChunks <= kMaxChunks ->
  (byteLength msg + numChunks * 12 <= chunkSize * numChunks
   < byteLength msg + numChunks * 12 + numChunks) /\
  chunkSize <= bufferSize this /\
  exists w' frags,
    (w1 ← send h message w0; deliver outcomes w1) = Normal w' /\
    sent w' = sent w0 ++ frags /\
    forall d, d ∈ frags ->
      byteLength (dg_bytes d) = chunkSize /\
      byteLength (dg_bytes d) <= bufferSize this.
Proof.
  intros this msg numChunks chunkSize Hsock Hclient Hbuf Hidle Hlong Hfew.
  pose proof (chunk_geometry h message w0 Hbuf Hlong) as (Hn & Hsize & _).
  fold this msg numChunks chunkSize in Hn, Hsize.
  split_and!.
  - apply (Math_ceil_div_bounds
             (byteLength msg + numChunks * kChunkHeaderSize) numChunks). lia.
  - apply (Math_ceil_div_bounds
             (byteLength msg + numChunks * kChunkHeaderSize) numChunks). lia.
  - lia.
  - destruct (send_any h message w0 s Hsock Hbuf Hlong Hfew Hidle outcomes c
                Hclient) as (w' & frags & Hrun & Hsent & Hfrags).
    exists w', frags. split_and!; try done.
    intros d Hd. apply list_elem_of_lookup in Hd as [i Hd].
    destruct (Hfrags i d Hd) as (_ & _ & (Hlen & _) & _).
    fold this msg numChunks chunkSize in Hlen. lia.
Qed.

(** C4 at a message of 23 bytes through a buffer of 22, the first write
    of which succeeds and the second fails. *)
Lemma C4_witness :
  (23 + 3 * 12 <= 20 * 3 < 23 + 3 * 12 + 3) /\
  20 <= 22 /\
  exists w' frags,
    (w1 ← send Fixture.host Fixture.a21 (Fixture.udp 22 true);
     deliver [None; Some (Error "EMSGSIZE")] w1) = Normal w' /\
    sent w' = sent (Fixture.udp 22 true) ++ frags /\
    forall d, d ∈ frags ->
      byteLength (dg_bytes d) = 20 /\ byteLength (dg_bytes d) <= 22.
Proof.
  apply (C4_chunk_size_within_bufferSize
           Fixture.host Fixture.a21 (Fixture.udp 22 true) (Ref 0) (Ref 0)
           [None; Some (Error "EMSGSIZE")]);
    vm_compute; first [reflexivity | discriminate].
Defined.

Section Numbering.

(** The i-th fragment dispatched carries the number [i]. *)
Lemma fragments_numbered t msg msgId numChunks chunkSize stride frags :
  fragments t msg msgId numChunks chunkSize stride frags ->
  Z.of_nat (length frags) <= 256 ->
  forall (i : nat) d, frags !! i = Some d ->
    SequenceNumber (dg_bytes d) = Some (Z.of_nat i).
Proof.
  intros Hfrags Hlen i d Hd.
  assert (Hi : (i < length frags)%nat) by (eapply lookup_lt_Some, Hd).
  destruct (Hfrags i d Hd) as (_ & _ & _ & Hseq & _).
  unfold SequenceNumber, byte_at. rewrite Hseq. simpl.
  rewrite ToUint8_value; [done | lia].
Qed.

End Numbering.

(** C5. With [reuseBuffer] set, a chunked message goes out one fragment
    at a time. [send] dispatches fragment 0 and leaves one completion
    callback; while the first [j] writes have completed without error
    and more remain, exactly the fragments 0 to [j] are dispatched and
    one write is in flight, whose callback holds the buffer with the
    bytes dispatched for fragment [j], so that fragment [j + 1] is
    dispatched by the completion of fragment [j] and by nothing else,
    and the buffer is not written to before; after as many
    completions as there are chunks all are dispatched and none is in
    flight; and when the write of fragment [j] completes with an error,
    the error goes to the client, no fragment after [j] is dispatched,
    whatever completes later, and those dispatched stay as they are. *)
Theorem C5_fragments_one_at_a_time
        (h : Host) (message : value) (w0 : World) (s c : ref) :
  let this := transport w0 in
  let msg := serialize h this message in
  let numChunks :=
    Math_ceil_div (byteLength msg) (bufferSize this - kChunkHeaderSize) in
  socket this = Some s ->
  client this = Some c ->
  kChunkHeaderSize < bufferSize this ->
  pending w0 = [] ->
  reuseBuffer this = true ->
  bufferSize this < byteLength msg ->
  numChunks <= kMaxChunks ->
  exists w1,
    send h message w0 = Normal w1 /\
    (forall j : nat, Z.of_nat j < numChunks ->
       exists wj frags,
         deliver (replicate j None) w1 = Normal wj /\
         sent wj = sent w0 ++ frags /\ length frags = S j /\
         (forall (i : nat) d, frags !! i = Some d ->
            SequenceNumber (dg_bytes d) = Some (Z.of_nat i)) /\
         (exists cb, pending wj = [cb] /\
                     last (map dg_bytes frags) = Some (cb_chunk cb)) /\
         emitted wj = emitted w0) /\
    (exists wn frags,
       deliver (replicate (Z.to_nat numChunks) None) w1 = Normal wn /\
       sent wn = sent w0 ++ frags /\ Z.of_nat (length frags) = numChunks /\
       pending wn = [] /\ emitted wn = emitted w0) /\
    (forall (j : nat) e rest, Z.of_nat j < numChunks ->
       exists w' frags,
         deliver (replicate j None ++ Some e :: rest) w1 = Normal w' /\
         sent w' = sent w0 ++ frags /\ length frags = S j /\
         pending w' = [] /\
         emitted w' = emitted w0 ++ [e]).
Proof.
  intros this msg numChunks Hsock Hclient Hbuf Hidle Hreuse Hlong Hfew.
  destruct (send_reusing h message w0 s Hsock Hbuf Hlong Hfew Hidle Hreuse)
    as (w1 & Hsend & Hw1).
  exists w1. split_and!; [done| | |].
  - intros j Hj.
    destruct (deliver_in_flight h message w0 s Hsock Hbuf Hlong w1 j Hreuse
                Hw1 Hj)
      as (wj & Hrun & _ & He & _ & _ & frags & chunk & Hsent & Hlen & Hfrags
          & Hlast & _ & Hpend).
    exists wj, frags. split_and!; try done; [lia| |].
    2: { eexists. split; [exact Hpend|]. exact Hlast. }
    eapply fragments_numbered; [exact Hfrags|].
    fold this msg numChunks in Hj. unfold kMaxChunks in *. lia.
  - destruct (deliver_all h message w0 s Hsock Hbuf Hlong w1 Hreuse Hw1)
      as (wn & Hrun & _ & He & _ & _ & Hpend & frags & Hsent & Hlen & _).
    exists wn, frags. split_and!; try done. by rewrite He, app_nil_r.
  - intros j e rest Hj.
    destruct (deliver_failure h message w0 s Hsock Hbuf Hlong w1 j e rest c
                Hclient Hreuse Hw1 Hj)
      as (w' & Hrun & _ & He & _ & _ & Hpend & frags & Hsent & Hlen & _).
    exists w', frags. split_and!; try done. lia.
Qed.

(** C5 at the chunked case of the tests, 14 bytes through a buffer of
    13. *)
Lemma C5_witness :
  exists w1,
    send Fixture.host Fixture.x12 (Fixture.udp 13 true) = Normal w1 /\
    (forall j : nat, Z.of_nat j < 14 ->
       exists wj frags,
         deliver (replicate j None) w1 = Normal wj /\
         sent wj = sent (Fixture.udp 13 true) ++ frags /\ length frags = S j /\
         (forall (i : nat) d, frags !! i = Some d ->
            SequenceNumber (dg_bytes d) = Some (Z.of_nat i)) /\
         (exists cb, pending wj = [cb] /\
                     last (map dg_bytes frags) = Some (cb_chunk cb)) /\
         emitted wj = emitted (Fixture.udp 13 true)) /\
    (exists wn frags,
       deliver (replicate 14 None) w1 = Normal wn /\
       sent wn = sent (Fixture.udp 13 true) ++ frags /\
       Z.of_nat (length frags) = 14 /\
       pending wn = [] /\ emitted wn = emitted (Fixture.udp 13 true)) /\
    (forall (j : nat) e rest, Z.of_nat j < 14 ->
       exists w' frags,
         deliver (replicate j None ++ Some e :: rest) w1 = Normal w' /\
         sent w' = sent (Fixture.udp 13 true) ++ frags /\ length frags = S j /\
         pending w' = [] /\
         emitted w' = emitted (Fixture.udp 13 true) ++ [e]).
Proof.
  apply (C5_fragments_one_at_a_time
           Fixture.host Fixture.x12 (Fixture.udp 13 true) (Ref 0) (Ref 0));
    vm_compute; first [reflexivity | discriminate].
Defined.

(** C2, as the code has it. On a connected transport with no message in
    flight, with [L] the length of the serialized message (deflated when
    [compression] is ['zlib']):
    - if [L <= bufferSize], [send] dispatches one datagram, whose bytes
      are the serialized message and nothing else;
    - if [L > bufferSize] and [numChunks = ceil(L / (bufferSize - 12))]
      is at most 128, exactly [numChunks] datagrams with the chunk magic
      are dispatched and no error is emitted: by [send] itself, whatever
      becomes of the writes, when [reuseBuffer] is false, and once every
      write has completed without error when it is true;
    - if [numChunks > 128], nothing is dispatched and the error
      ['message too large'] is emitted on the client. *)
Theorem C2_datagrams_per_send
        (h : Host) (message : value) (w0 : World) (s c : ref) :
  let this := transport w0 in
  let msg := serialize h this message in
  let numChunks :=
    Math_ceil_div (byteLength msg) (bufferSize this - kChunkHeaderSize) in
  socket this = Some s ->
  client this = Some c ->
  kChunkHeaderSize < bufferSize this ->
  pending w0 = [] ->
  (byteLength msg <= bufferSize this ->
   exists w',
     send h message w0 = Normal w' /\
     sent w' = sent w0 ++ [{| dg_bytes := msg; dg_port := port this;
                              dg_host := host this |}] /\
     pending w' = [] /\ emitted w' = emitted w0) /\
  (bufferSize this < byteLength msg -> numChunks <= kMaxChunks ->
   forall outcomes,
     (reuseBuffer this = true ->
      outcomes = replicate (Z.to_nat numChunks) None) ->
     exists w' frags,
       (w1 ← send h message w0; deliver outcomes w1) = Normal w' /\
       sent w' = sent w0 ++ frags /\
       Z.of_nat (length frags) = numChunks /\
       (forall d, d ∈ frags -> magic (dg_bytes d) = [x1e; x0f]) /\
       pending w' = [] /\ emitted w' = emitted w0) /\
  (bufferSize this < byteLength msg -> kMaxChunks < numChunks ->
   exists w',
     send h message w0 = Normal w' /\
     sent w' = sent w0 /\
     pending w' = [] /\
     emitted w' = emitted w0 ++ [Error "message too large"]).
Proof.
  intros this msg numChunks Hsock Hclient Hbuf Hidle. split_and!.
  - intros Hshort. eexists. split; [by apply (send_unchunked h message w0 s)|].
    by simpl.
  - intros Hlong Hfew outcomes Houtcomes.
    assert (exists w', (w1 ← send h message w0; deliver outcomes w1) = Normal w'
              /\ exists stride,
                   settled w0 msg (randomBytes h kMessageIdBytes) numChunks
                     (Math_ceil_div (byteLength msg + numChunks * kChunkHeaderSize)
                                    numChunks)
                     stride numChunks [] w')
      as (w' & Hrun & stride & Hw').
    { destruct (reuseBuffer this) eqn:Hreuse.
      - rewrite Houtcomes by done.
        destruct (send_all h message w0 s Hsock Hbuf Hlong Hfew Hidle)
          as (w' & Hrun & Hw'). eauto.
      - destruct (send_copying h message w0 s Hsock Hbuf Hlong Hfew Hidle
                    Hreuse) as (w1 & Hsend & Hw1).
        exists w1. rewrite Hsend. simpl.
        rewrite (deliver_settled _ _ _ _ _ _ _ _ _ _ Hw1). eauto. }
    destruct Hw' as (_ & He & _ & _ & Hpend & frags & Hsent & Hlen & Hfrags).
    exists w', frags. split_and!; try done; [|by rewrite He, app_nil_r].
    intros d Hd. apply list_elem_of_lookup in Hd as [i Hd].
    destruct (Hfrags i d Hd) as (_ & _ & (_ & Hid & _) & _).
    unfold magic. change 2%nat with (2 `min` 10)%nat.
    by rewrite <- take_take, Hid.
  - intros Hlong Hmany. eexists.
    split; [by apply (send_too_large h message w0 c)|].
    by simpl.
Qed.

(** C2, as the code has it, at the chunked case of the tests. *)
Lemma C2_witness :
  (byteLength (serialize Fixture.host (transport (Fixture.udp 13 true)) Fixture.x12)
   <= 13 ->
   exists w',
     send Fixture.host Fixture.x12 (Fixture.udp 13 true) = Normal w' /\
     sent w' = sent (Fixture.udp 13 true)
               ++ [{| dg_bytes := serialize Fixture.host
                                    (transport (Fixture.udp 13 true)) Fixture.x12;
                      dg_port := Int 9000; dg_host := "localhost" |}] /\
     pending w' = [] /\ emitted w' = emitted (Fixture.udp 13 true)) /\
  (13 < byteLength (serialize Fixture.host (transport (Fixture.udp 13 true))
                              Fixture.x12) ->
   14 <= kMaxChunks ->
   forall outcomes,
     (reuseBuffer (transport (Fixture.udp 13 true)) = true ->
      outcomes = replicate 14 None) ->
     exists w' frags,
       (w1 ← send Fixture.host Fixture.x12 (Fixture.udp 13 true);
        deliver outcomes w1) = Normal w' /\
       sent w' = sent (Fixture.udp 13 true) ++ frags /\
       Z.of_nat (length frags) = 14 /\
       (forall d, d ∈ frags -> magic (dg_bytes d) = [x1e; x0f]) /\
       pending w' = [] /\ emitted w' = emitted (Fixture.udp 13 true)) /\
  (13 < byteLength (serialize Fixture.host (transport (Fixture.udp 13 true))
                              Fixture.x12) ->
   kMaxChunks < 14 ->
   exists w',
     send Fixture.host Fixture.x12 (Fixture.udp 13 true) = Normal w' /\
     sent w' = sent (Fixture.udp 13 true) /\
     pending w' = [] /\
     emitted w' = emitted (Fixture.udp 13 true) ++ [Error "message too large"]).
Proof.
  apply (C2_datagrams_per_send
           Fixture.host Fixture.x12 (Fixture.udp 13 true) (Ref 0) (Ref 0));
    vm_compute; reflexivity.
Defined.

(** Nothing in flight, nothing to complete. *)
Lemma deliver_idle outcomes (w : World) :
  pending w = [] -> deliver outcomes w = Normal w.
Proof.
  intros Hidle. induction outcomes as [|err outcomes IH]; [done|].
  simpl. unfold complete. rewrite Hidle. exact IH.
Qed.

(** C2 without the condition on the writes fails when the buffer is
    reused and a write fails: 23 bytes through a buffer of 22 bytes make 3 chunks;
    the write of the first completes with an error, and one datagram,
    not three, is all that is ever dispatched. *)
Lemma C2_counterexample :
  bufferSize (transport (Fixture.udp 22 true))
  < byteLength (serialize Fixture.host (transport (Fixture.udp 22 true))
                          Fixture.a21) /\
  Math_ceil_div
    (byteLength (serialize Fixture.host (transport (Fixture.udp 22 true))
                           Fixture.a21))
    (bufferSize (transport (Fixture.udp 22 true)) - kChunkHeaderSize)
  = 3 /\
  exists w',
    (w1 ← send Fixture.host Fixture.a21 (Fixture.udp 22 true);
     deliver [Some (Error "EMSGSIZE")] w1) = Normal w' /\
    length (sent w') = 1%nat /\
    emitted w' = [Error "EMSGSIZE"] /\
    forall outcomes, deliver outcomes w' = Normal w'.
Proof.
  split_and!; [done | done |].
  eexists. split_and!; [vm_compute; reflexivity | done | done |].
  intros outcomes. by apply deliver_idle.
Qed.

(** C1 fails on the code. 23 bytes go through a buffer of 22 bytes in 3
    chunks of 12 + 8 bytes. Without reuse of the buffer the payloads
    start 10 bytes apart in the message and hold 8: bytes 8, 9, 18 and
    19 of the message are in no datagram, and the last datagram ends
    with 5 bytes of uninitialised memory. With reuse the payloads are
    consecutive, and the last datagram ends with a byte left over from
    the fragment before it (byte 15 of the message). In neither mode do
    the payloads, put together in the order of the sequence numbers,
    make up the message. *)
Theorem C1_reassembly_differs_from_message :
  let msg := Buffer_from (JSON_stringify Fixture.host Fixture.a21) in
  serialize Fixture.host (transport (Fixture.udp 22 false)) Fixture.a21 = msg /\
  serialize Fixture.host (transport (Fixture.udp 22 true)) Fixture.a21 = msg /\
  byteLength msg = 23 /\
  (exists w',
     send Fixture.host Fixture.a21 (Fixture.udp 22 false) = Normal w' /\
     pending w' = [] /\
     map (fun d => SequenceNumber (dg_bytes d)) (sent w')
     = [Some 0; Some 1; Some 2] /\
     reassemble (sent w')
     = take 8 msg ++ take 8 (drop 10 msg) ++ drop 20 msg ++ replicate 5 xee /\
     reassemble (sent w') <> msg) /\
  (exists w',
     (w1 ← send Fixture.host Fixture.a21 (Fixture.udp 22 true);
      deliver (replicate 3 None) w1) = Normal w' /\
     pending w' = [] /\
     map (fun d => SequenceNumber (dg_bytes d)) (sent w')
     = [Some 0; Some 1; Some 2] /\
     reassemble (sent w') = msg ++ take 1 (drop 15 msg) /\
     reassemble (sent w') <> msg).
Proof.
  split_and!; [done | done | done | |];
    (eexists; split_and!; [vm_compute; reflexivity | done | done | done |]);
    vm_compute; discriminate.
Qed.

(** *** The tests of test/index.js on the transport *)

Example UdpTransport_sets_defaults_in_the_constructor :
  constructor [("graylogHost", String "foo"); ("graylogPort", Number (Int 3000))]
              (Some (Ref 0))
  = Normal {| bufferSize := 1400; client := Some (Ref 0); compression := "zlib";
              host := "foo"; port := Int 3000; socket := None;
              reuseBuffer := true |}.
Proof. reflexivity. Qed.

Example UdpTransport_validates_constructor_options :
  let check options := constructor options (Some (Ref 0)) in
  check [("bufferSize", String "foo")]
  = Throw (TypeError "bufferSize must be a number") /\
  check [("bufferSize", Number (Int (-1)))]
  = Throw (RangeError "bufferSize must be a safe positive integer") /\
  check [("bufferSize", Number (Int 0))]
  = Throw (RangeError "bufferSize must be a safe positive integer") /\
  check [("bufferSize", Number NaN)]
  = Throw (RangeError "bufferSize must be a safe positive integer") /\
  check [("bufferSize", Number (Infinity false))]
  = Throw (RangeError "bufferSize must be a safe positive integer") /\
  check [("bufferSize", Number (Int 12))]
  = Throw (RangeError "bufferSize must be larger than 12 to support chunking") /\
  check [("compression", Number (Int 1))]
  = Throw (TypeError "compression must be a string") /\
  check [("compression", String "zzz")]
  = Throw (Error "unsupported compression type: zzz") /\
  check [("graylogHost", Number (Int 1))]
  = Throw (TypeError "graylogHost must be a string") /\
  check [("graylogHost", String "foo"); ("graylogPort", String "bar")]
  = Throw (TypeError "graylogPort must be a number") /\
  check [("graylogHost", String "foo"); ("graylogPort", Number (Int 5));
         ("reuseBuffer", Number (Int 5))]
  = Throw (TypeError "reuseBuffer must be a boolean").
Proof. cbv zeta. split_and!; reflexivity. Qed.

Example emits_an_error_if_a_message_is_too_large_to_send :
  exists w',
    send Fixture.host (Fixture.xs 127) (Fixture.udp 13 true) = Normal w' /\
    sent w' = [] /\ pending w' = [] /\
    emitted w' = [Error "message too large"].
Proof. eexists. split; [vm_compute; reflexivity | done]. Qed.

Example does_not_chunk_messages_that_are_small_enough :
  exists w',
    send Fixture.host (Fixture.xs 11) (Fixture.udp 13 true) = Normal w' /\
    sent w' = [{| dg_bytes := Buffer_from (JSON_stringify Fixture.host
                                             (Fixture.xs 11));
                  dg_port := Int 9000; dg_host := "localhost" |}] /\
    pending w' = [] /\ emitted w' = [].
Proof. eexists. split; [vm_compute; reflexivity | done]. Qed.

Example chunks_messages_that_are_big_enough_with_reuseBuffer_true :
  exists w',
    (w1 ← send Fixture.host Fixture.x12 (Fixture.udp 13 true);
     deliver (replicate 14 None) w1) = Normal w' /\
    map Fixture.checked (sent w') = map Fixture.expected (seqZ 0 14) /\
    pending w' = [] /\ emitted w' = [].
Proof. eexists. split; [vm_compute; reflexivity | done]. Qed.

Example chunks_messages_that_are_big_enough_with_reuseBuffer_false :
  exists w',
    send Fixture.host Fixture.x12 (Fixture.udp 13 false) = Normal w' /\
    map Fixture.checked (sent w') = map Fixture.expected (seqZ 0 14) /\
    pending w' = [] /\ emitted w' = [].
Proof. eexists. split; [vm_compute; reflexivity | done]. Qed.

Example forwards_send_errors_from_the_dgram_module :
  exists w',
    (w1 ← send Fixture.host Fixture.x12 (Fixture.udp 13 true);
     deliver [Some (Error "test error")] w1) = Normal w' /\
    length (sent w') = 1%nat /\ pending w' = [] /\
    emitted w' = [Error "test error"].
Proof. eexists. split; [vm_compute; reflexivity | done]. Qed.

End UdpTheory.


(* ===================================================================== *)
(** ** The stream transport: backpressure                                 *)
(* ===================================================================== *)

Module TcpTheory.
Import Tcp.

(** A transport that the constructor has made, once connected, is in
    the state the properties below start from. *)
Lemma constructor_connected options c accepts listening t :
  Tcp.constructor options (Some c) = Normal t ->
  Tcp.connected (Tcp.connect (Tcp.new t accepts listening)) [].
Proof.
  unfold Tcp.constructor. intros H.
  repeat case_match; try discriminate.
  all: injection H as <-; unfold Tcp.connected; simpl.
  all: repeat match goal with
              | H : _ || _ = false |- _ => apply orb_false_elim in H as [? ?]
              | H : negb _ = false |- _ => apply negb_false_iff in H
              end.
  all: unfold number_ltb, isSafeInteger in *.
  all: split_and!; eauto; try lia; try discriminate.
Qed.

(** *** [send] and the ['drain'] handler, case by case *)

Section Steps.
Variable h : Host.

Lemma preserved_refl w : preserved w w.
Proof. by unfold preserved. Qed.

Lemma preserved_trans w1 w2 w3 :
  preserved w1 w2 -> preserved w2 w3 -> preserved w1 w3.
Proof.
  unfold preserved. intros (?&?&?&?&?&?) (?&?&?&?&?&?). split_and!; congruence.
Qed.

(** [send] while the socket accepts data. *)
Lemma send_accepting message w s :
  socket (transport w) = Some s ->
  canAcceptData (transport w) = true ->
  exists w',
    send h message w = Normal w' /\
    written w' = written w ++ [frame h message] /\
    canAcceptData (transport w') = accepts w (length (written w)) /\
    backlog (transport w') = backlog (transport w) /\
    emitted w' = emitted w /\
    preserved w w'.
Proof.
  intros Hsock Haccept. unfold send, socket_write. rewrite Haccept, Hsock.
  eexists. split; [reflexivity|]. by simpl.
Qed.

(** [send] under backpressure, with room in the backlog. *)
Lemma send_backpressured message w bl :
  canAcceptData (transport w) = false ->
  backlog (transport w) = Some bl ->
  Z.of_nat (length bl) < maxBacklogSize (transport w) ->
  exists w',
    send h message w = Normal w' /\
    backlog (transport w') = Some (bl ++ [frame h message]) /\
    written w' = written w /\
    canAcceptData (transport w') = false /\
    emitted w' = emitted w /\
    preserved w w'.
Proof.
  intros Haccept Hbl Hroom. unfold send. rewrite Haccept, Hbl.
  destruct (Z.ltb_spec (Z.of_nat (length bl)) (maxBacklogSize (transport w)));
    [|lia].
  eexists. split; [reflexivity|]. by simpl.
Qed.

(** [send] under backpressure, the backlog full, on a client that
    listens to ['error']. *)
Lemma send_overflowing message w bl c :
  canAcceptData (transport w) = false ->
  backlog (transport w) = Some bl ->
  client (transport w) = Some c ->
  maxBacklogSize (transport w) <= Z.of_nat (length bl) ->
  listening w = true ->
  exists w',
    send h message w = Normal w' /\
    backlog (transport w') = Some bl /\
    written w' = written w /\
    canAcceptData (transport w') = false /\
    emitted w' = emitted w ++ [Error "too many messages buffered"] /\
    preserved w w'.
Proof.
  intros Haccept Hbl Hclient Hfull Hheard. unfold send. rewrite Haccept, Hbl.
  destruct (Z.ltb_spec (Z.of_nat (length bl)) (maxBacklogSize (transport w)));
    [lia|].
  unfold client_emit. rewrite Hclient, Hheard.
  eexists. split; [reflexivity|]. by simpl.
Qed.

(** The same on a client without a listener: [emit] throws the error,
    and [send] with it. *)
Lemma send_unheard message w bl c :
  canAcceptData (transport w) = false ->
  backlog (transport w) = Some bl ->
  client (transport w) = Some c ->
  maxBacklogSize (transport w) <= Z.of_nat (length bl) ->
  listening w = false ->
  send h message w = Throw (Error "too many messages buffered").
Proof.
  intros Haccept Hbl Hclient Hfull Hunheard. unfold send. rewrite Haccept, Hbl.
  destruct (Z.ltb_spec (Z.of_nat (length bl)) (maxBacklogSize (transport w)));
    [lia|].
  unfold client_emit. by rewrite Hclient, Hunheard.
Qed.

(** The loop of the ['drain'] handler writes the first [k] messages of
    the backlog, in their order, and leaves the others: every write but
    the last was accepted, and the loop stops short of the end of the
    backlog only on a write that was not. *)
Lemma drain_while_spec bl : forall fuel w s,
  socket (transport w) = Some s ->
  backlog (transport w) = Some bl ->
  canAcceptData (transport w) = true ->
  (length bl < fuel)%nat ->
  exists (k : nat) w',
    drain_while fuel w = Normal w' /\
    (k <= length bl)%nat /\
    written w' = written w ++ take k bl /\
    backlog (transport w') = Some (drop k bl) /\
    (forall i, (S i < k)%nat -> accepts w (length (written w) + i)%nat = true) /\
    (canAcceptData (transport w') = true -> k = length bl) /\
    (canAcceptData (transport w') = false ->
     exists j, k = S j /\ accepts w (length (written w) + j)%nat = false) /\
    emitted w' = emitted w /\
    preserved w w'.
Proof.
  induction bl as [|data rest IH]; intros fuel w s Hsock Hbl Haccept Hfuel.
  - destruct fuel as [|fuel]; [simpl in Hfuel; lia|].
    exists 0%nat, w. simpl. rewrite Haccept, Hbl.
    split_and!; try done; try apply preserved_refl.
    all: try (by rewrite app_nil_r); try (intros i Hi; lia).
    all: intros Hno; congruence.
  - destruct fuel as [|fuel]; [simpl in Hfuel; lia|].
    simpl. rewrite Haccept, Hbl. unfold socket_write. simpl. rewrite Hsock.
    simpl.
    destruct (accepts w (length (written w))) eqn:Hanswer.
    + match goal with
      | |- context [drain_while fuel ?w1] =>
        destruct (IH fuel w1 s) as
            (k & w' & Hrun & Hk & Hwritten & Hrest & Hall & Hyes & Hno & He & Hpres)
      end; try done.
      { simpl in Hfuel. lia. }
      simpl in *.
      exists (S k), w'. split_and!; try done.
      * lia.
      * rewrite Hwritten, <- app_assoc. done.
      * intros [|i] Hi.
        -- by rewrite Nat.add_0_r.
        -- specialize (Hall i ltac:(lia)).
           rewrite length_app in Hall. simpl in Hall.
           by replace (length (written w) + S i)%nat
             with (length (written w) + 1 + i)%nat by lia.
      * intros Htrue. by rewrite (Hyes Htrue).
      * intros Hfalse. destruct (Hno Hfalse) as (j & -> & Hj).
        exists (S j). split; [done|].
        rewrite length_app in Hj. simpl in Hj.
        by replace (length (written w) + S j)%nat
          with (length (written w) + 1 + j)%nat by lia.
    + destruct fuel as [|fuel]; simpl.
      all: exists 1%nat; eexists; split; [reflexivity|]; simpl.
      all: split_and!; try done; try lia.
      all: try (intros i Hi; lia).
      all: try (intros _; exists 0%nat; by rewrite Nat.add_0_r).
Qed.

Lemma on_drain_spec w s bl :
  socket (transport w) = Some s ->
  backlog (transport w) = Some bl ->
  exists (k : nat) w',
    on_drain w = Normal w' /\
    (k <= length bl)%nat /\
    written w' = written w ++ take k bl /\
    backlog (transport w') = Some (drop k bl) /\
    (forall i, (S i < k)%nat -> accepts w (length (written w) + i)%nat = true) /\
    (canAcceptData (transport w') = true -> k = length bl) /\
    (canAcceptData (transport w') = false ->
     exists j, k = S j /\ accepts w (length (written w) + j)%nat = false) /\
    emitted w' = emitted w /\
    preserved w w'.
Proof.
  intros Hsock Hbl. unfold on_drain. cbv zeta.
  set (w1 := with_transport (with_canAcceptData true (transport w)) w).
  assert (Hbl1 : backlog (transport w1) = Some bl) by done.
  rewrite Hbl1. change (default [] (Some bl)) with bl.
  destruct (drain_while_spec bl (S (length bl)) w1 s)
    as (k & w' & Hrun & Hrest); try done; [lia|].
  exists k, w'. split; [exact Hrun|]. exact Hrest.
Qed.


(** *** Any sequence of calls and events *)

Lemma connected_preserved w w' bl bl' :
  connected w bl -> preserved w w' ->
  backlog (transport w') = Some bl' ->
  ((length bl' <= length bl)%nat \/
   Z.of_nat (length bl') <= maxBacklogSize (transport w)) ->
  (canAcceptData (transport w') = true -> bl' = []) ->
  connected w' bl'.
Proof.
  intros ([s Hs] & [c Hc] & Hbl & Hmax & Hempty) (Ps & Pc & Pm & _) Hbl' Hlen Hacc.
  unfold connected. rewrite Ps, Pc, Pm. split_and!; eauto.
  destruct Hlen; lia.
Qed.

(** One event on a connected transport. The only way for it to throw is
    a [send] that finds the backlog full on a client without a listener
    for ['error']. Otherwise the transport stays connected, and the
    frames written so far followed by those queued grow by the frame of
    the message sent, unless it was dropped and reported. *)
Lemma step_connected e w bl :
  connected w bl ->
  (exists w' bl' kept,
     step h e w = Normal w' /\
     connected w' bl' /\
     written w' ++ bl' = (written w ++ bl) ++ kept /\
     sublist kept (frames h [e]) /\
     (length (emitted w') + length kept
      = length (emitted w) + length (frames h [e]))%nat /\
     preserved w w') \/
  (listening w = false /\
   step h e w = Throw (Error "too many messages buffered")).
Proof.
  intros Hconn.
  pose proof Hconn as ([s Hs] & [c Hc] & Hbl & Hmax & Hempty).
  destruct e as [message|]; simpl.
  - destruct (canAcceptData (transport w)) eqn:Hacc.
    + left. rewrite (Hempty eq_refl) in *.
      destruct (send_accepting message w s Hs Hacc)
        as (w' & Hsend & Hw & Ha & Hb & He & Hp).
      exists w', [], [frame h message]. split_and!; try done.
      * eapply connected_preserved; eauto. by rewrite Hb.
      * by rewrite Hw, !app_nil_r.
      * rewrite He. simpl. lia.
    + destruct (decide (Z.of_nat (length bl) < maxBacklogSize (transport w)))
        as [Hroom|Hfull].
      * left.
        destruct (send_backpressured message w bl Hacc Hbl Hroom)
          as (w' & Hsend & Hb & Hw & Ha & He & Hp).
        exists w', (bl ++ [frame h message]), [frame h message].
        split_and!; try done.
        -- eapply connected_preserved; eauto.
           ++ right. rewrite length_app. simpl. lia.
           ++ congruence.
        -- by rewrite Hw, app_assoc.
        -- rewrite He. simpl. lia.
      * destruct (listening w) eqn:Hheard.
        -- left.
           destruct (send_overflowing message w bl c Hacc Hbl Hc ltac:(lia)
                                      Hheard)
             as (w' & Hsend & Hb & Hw & Ha & He & Hp).
           exists w', bl, []. split_and!; try done.
           ++ eapply connected_preserved; eauto; congruence.
           ++ by rewrite Hw, app_nil_r.
           ++ apply sublist_nil_l.
           ++ rewrite He, length_app. simpl. lia.
        -- right. split; [done|].
           apply (send_unheard message w bl c); [done | done | done | lia | done].
  - left.
    destruct (on_drain_spec w s bl Hs Hbl)
      as (k & w' & Hrun & Hk & Hw & Hb & Hall & Hyes & Hno & He & Hp).
    exists w', (drop k bl), []. split_and!; try done.
    + eapply connected_preserved; eauto.
      * left. rewrite length_drop. lia.
      * intros Htrue. rewrite (Hyes Htrue). apply drop_all.
    + by rewrite Hw, app_nil_r, <- app_assoc, take_drop.
    + rewrite He. simpl. lia.
Qed.

Lemma frames_cons e events : frames h (e :: events) = frames h [e] ++ frames h events.
Proof. destruct e; simpl; by rewrite ?app_nil_r. Qed.

(** Any sequence of events on a connected transport. *)
Lemma run_connected events : forall w bl,
  connected w bl ->
  (exists w' bl' kept,
     run h events w = Normal w' /\
     connected w' bl' /\
     written w' ++ bl' = (written w ++ bl) ++ kept /\
     sublist kept (frames h events) /\
     (length (emitted w') + length kept
      = length (emitted w) + length (frames h events))%nat /\
     preserved w w') \/
  (listening w = false /\
   run h events w = Throw (Error "too many messages buffered")).
Proof.
  induction events as [|e events IH]; intros w bl Hconn.
  - left. exists w, bl, []. split_and!; try done; try apply preserved_refl.
    by rewrite app_nil_r.
  - destruct (step_connected e w bl Hconn)
      as [(w1 & bl1 & kept1 & Hstep & Hconn1 & Hq1 & Hsub1 & Hcount1 & Hp1)
         | [Hunheard Hstep]].
    2: { right. split; [done|]. simpl. by rewrite Hstep. }
    destruct (IH w1 bl1 Hconn1)
      as [(w' & bl' & kept & Hrun & Hconn' & Hq & Hsub & Hcount & Hp)
         | [Hunheard Hrun]].
    + left. exists w', bl', (kept1 ++ kept). split_and!.
      * simpl. rewrite Hstep. exact Hrun.
      * done.
      * by rewrite Hq, Hq1, !app_assoc.
      * rewrite frames_cons. by apply sublist_app.
      * rewrite frames_cons, !length_app. lia.
      * eapply preserved_trans; eauto.
    + right. destruct Hp1 as (_ & _ & _ & _ & _ & Hl).
      split; [congruence|]. simpl. rewrite Hstep. exact Hrun.
Qed.


End Steps.

(** C6. On a connected stream transport:
    - while the socket accepts data, [send] writes the frame at once and
      keeps the answer of that write as the state for the next call;
    - under backpressure, with room in the backlog, [send] puts the
      frame at the end of the backlog and writes nothing;
    - the ['drain'] handler writes the first [k] frames of the backlog in
      their order, one per turn, and leaves the others queued; each write
      but the last was accepted, and it stops before the end of the
      backlog only on a write that was not;
    - so after any sequence of calls of [send] and of ['drain'] events,
      the frames written followed by the frames queued are those that
      were there before followed by frames of the messages sent since, in
      the order of the calls of [send], each message being either among
      them or reported as dropped. The sequence runs to its end
      whenever the client has a listener for ['error']; without one it
      stops where a [send] finds the backlog full, on the error that
      [emit] throws, and what was said holds of the calls before. *)
Theorem C6_stream_writes_in_send_order
        (h : Host) (w : World) (bl : list Buffer) :
  connected w bl ->
  (forall message,
     canAcceptData (transport w) = true ->
     exists w',
       send h message w = Normal w' /\
       written w' = written w ++ [frame h message] /\
       canAcceptData (transport w') = accepts w (length (written w)) /\
       backlog (transport w') = Some []) /\
  (forall message,
     canAcceptData (transport w) = false ->
     Z.of_nat (length bl) < maxBacklogSize (transport w) ->
     exists w',
       send h message w = Normal w' /\
       written w' = written w /\
       backlog (transport w') = Some (bl ++ [frame h message])) /\
  (exists (k : nat) w',
     on_drain w = Normal w' /\
     (k <= length bl)%nat /\
     written w' = written w ++ take k bl /\
     backlog (transport w') = Some (drop k bl) /\
     (forall i, (S i < k)%nat ->
        accepts w (length (written w) + i)%nat = true) /\
     (canAcceptData (transport w') = true -> k = length bl) /\
     (canAcceptData (transport w') = false ->
      exists j, k = S j /\ accepts w (length (written w) + j)%nat = false)) /\
  (forall events,
     (exists w' bl' kept,
        run h events w = Normal w' /\
        backlog (transport w') = Some bl' /\
        written w' ++ bl' = (written w ++ bl) ++ kept /\
        sublist kept (frames h events) /\
        (length (emitted w') + length kept
         = length (emitted w) + length (frames h events))%nat) \/
     (listening w = false /\
      run h events w = Throw (Error "too many messages buffered"))).
Proof.
  intros Hconn.
  pose proof Hconn as ([s Hs] & [c Hc] & Hbl & Hmax & Hempty).
  split_and!.
  - intros message Hacc.
    destruct (send_accepting h message w s Hs Hacc)
      as (w' & Hsend & Hw & Ha & Hb & _).
    exists w'. split_and!; try done. by rewrite Hb, Hbl, (Hempty Hacc).
  - intros message Hacc Hroom.
    destruct (send_backpressured h message w bl Hacc Hbl Hroom)
      as (w' & Hsend & Hb & Hw & _).
    by exists w'.
  - destruct (on_drain_spec w s bl Hs Hbl)
      as (k & w' & Hrun & Hk & Hw & Hb & Hall & Hyes & Hno & _).
    by exists k, w'.
  - intros events.
    destruct (run_connected h events w bl Hconn)
      as [(w' & bl' & kept & Hrun & (_ & _ & Hbl' & _) & Hq & Hsub & Hcount & _)
         | Hthrown].
    + left. by exists w', bl', kept.
    + by right.
Qed.

(** C6 at a transport under backpressure with two frames queued. *)
Lemma C6_witness :
  (forall message,
     canAcceptData (transport Fixture.tcp_queued) = true ->
     exists w',
       send Fixture.host message Fixture.tcp_queued = Normal w' /\
       written w' = written Fixture.tcp_queued ++ [frame Fixture.host message] /\
       canAcceptData (transport w')
       = accepts Fixture.tcp_queued (length (written Fixture.tcp_queued)) /\
       backlog (transport w') = Some []) /\
  (forall message,
     canAcceptData (transport Fixture.tcp_queued) = false ->
     Z.of_nat (length Fixture.queued)
     < maxBacklogSize (transport Fixture.tcp_queued) ->
     exists w',
       send Fixture.host message Fixture.tcp_queued = Normal w' /\
       written w' = written Fixture.tcp_queued /\
       backlog (transport w')
       = Some (Fixture.queued ++ [frame Fixture.host message])) /\
  (exists (k : nat) w',
     on_drain Fixture.tcp_queued = Normal w' /\
     (k <= length Fixture.queued)%nat /\
     written w' = written Fixture.tcp_queued ++ take k Fixture.queued /\
     backlog (transport w') = Some (drop k Fixture.queued) /\
     (forall i, (S i < k)%nat ->
        accepts Fixture.tcp_queued
                (length (written Fixture.tcp_queued) + i)%nat = true) /\
     (canAcceptData (transport w') = true -> k = length Fixture.queued) /\
     (canAcceptData (transport w') = false ->
      exists j, k = S j /\
                accepts Fixture.tcp_queued
                        (length (written Fixture.tcp_queued) + j)%nat = false)) /\
  (forall events,
     (exists w' bl' kept,
        run Fixture.host events Fixture.tcp_queued = Normal w' /\
        backlog (transport w') = Some bl' /\
        written w' ++ bl'
        = (written Fixture.tcp_queued ++ Fixture.queued) ++ kept /\
        sublist kept (frames Fixture.host events) /\
        (length (emitted w') + length kept
         = length (emitted Fixture.tcp_queued)
           + length (frames Fixture.host events))%nat) \/
     (listening Fixture.tcp_queued = false /\
      run Fixture.host events Fixture.tcp_queued
      = Throw (Error "too many messages buffered"))).
Proof.
  apply (C6_stream_writes_in_send_order
           Fixture.host Fixture.tcp_queued Fixture.queued).
  unfold connected. simpl.
  split_and!; [by exists (Ref 0) | by exists (Ref 0) | reflexivity | lia | done].
Defined.




(** Two frames are queued behind a write that was refused, and the
    socket refuses the next two writes as well: each ['drain'] event
    gets one frame written, in the order of the queue, and a third one
    finds the queue empty and leaves the transport accepting. *)
Example drain_stops_at_the_first_refusal :
  exists w1 w2 w3,
    on_drain Fixture.tcp_queued = Normal w1 /\
    written w1 = written Fixture.tcp_queued ++ take 1 Fixture.queued /\
    backlog (transport w1) = Some (drop 1 Fixture.queued) /\
    canAcceptData (transport w1) = false /\
    on_drain w1 = Normal w2 /\
    written w2 = written Fixture.tcp_queued ++ Fixture.queued /\
    backlog (transport w2) = Some [] /\
    canAcceptData (transport w2) = false /\
    on_drain w2 = Normal w3 /\
    written w3 = written w2 /\
    canAcceptData (transport w3) = true.
Proof. do 3 eexists. split_and!; reflexivity. Qed.

End TcpTheory.


(* ===================================================================== *)
(** ** Life cycle: close, and the client                                  *)
(* ===================================================================== *)

Section Closing.

(** [close] of the datagram transport. *)
Lemma udp_close_spec (u : Udp.World) :
  exists u',
    Udp.close u = Normal u' /\
    Udp.close u' = Normal u' /\
    Udp.sent u' = Udp.sent u /\
    Udp.emitted u' = Udp.emitted u /\
    Udp.pending u' = Udp.pending u /\
    (Udp.socket (Udp.transport u) = None -> u' = u) /\
    (forall s, Udp.socket (Udp.transport u) = Some s ->
       Udp.socket (Udp.transport u') = None /\
       Udp.closed u' = Udp.closed u ++ [s]).
Proof.
  unfold Udp.close. destruct (Udp.socket (Udp.transport u)) as [s|] eqn:Hs.
  - eexists. split; [reflexivity|]. simpl. split_and!; try done.
    intros s' [= <-]. done.
  - exists u. rewrite Hs. done.
Qed.


End Closing.



(** The test 'supports multiple calls to close()': [close], [close],
    [connect], [close], [close] on a transport fresh from its
    constructor. *)
Example supports_multiple_calls_to_close :
  exists t u',
    Udp.constructor [("graylogHost", String "localhost");
                     ("graylogPort", Number (Int 9000))] None = Normal t /\
    (u ← Udp.close (Udp.new t); u ← Udp.close u;
     u ← Udp.close (Udp.connect u); Udp.close u) = Normal u' /\
    Udp.socket (Udp.transport u') = None /\
    Udp.closed u' = [Ref 0] /\
    Udp.sent u' = [] /\ Udp.emitted u' = [].
Proof. do 2 eexists. split_and!; reflexivity. Qed.

Module GelfTheory.
Import Gelf.

Section Client.
Variable h : Host.

(** The constructor refuses every configuration that names a transport
    other than ['udp']. *)
Lemma constructor_other_transport props name :
  get props "transport" = String name -> name <> "udp" ->
  exists e, constructor h (Object props) = Throw e.
Proof.
  intros Hname Hne. unfold constructor. simpl.
  unfold get_default. rewrite Hname.
  assert (Hsup : supportedTransports name = false).
  { unfold supportedTransports. by apply String.eqb_neq. }
  rewrite Hsup. simpl.
  destruct (get props "host") as [| | | | ? | |]; eauto;
    destruct (get props "version") as [| | | | ? | |]; eauto.
Qed.

(** A configuration that names ['udp'], or no transport, and that
    [UdpTransport] accepts makes a client on a datagram transport with
    that configuration. *)
Lemma constructor_udp props t :
  get props "host" = Undefined -> get props "version" = Undefined ->
  get props "transport" = Undefined \/ get props "transport" = String "udp" ->
  Udp.constructor props (Some (Ref 0)) = Normal t ->
  constructor h (Object props)
  = Normal {| this := {| host := hostname h; version := kGelfVersion;
                         kTransport := Some (Ref 0) |};
              udp := Udp.new t; unhandled := [] |}.
Proof.
  intros Hhost Hversion Htransport Ht. unfold constructor. simpl.
  unfold get_default. rewrite Hhost, Hversion.
  destruct Htransport as [-> | ->]; simpl; by rewrite Ht.
Qed.

(** A log function on a client that has its transport passes the
    message it composes to the transport's [send], and returns
    normally. *)
Lemma kLogFunction_forwards short full additionalFields timestamp level w r :
  kTransport (this w) = Some r ->
  exists w',
    kLogFunction h short full additionalFields timestamp level w = Normal w' /\
    this w' = this w /\
    match Udp.send h (compose h (this w) short full additionalFields
                              timestamp level) (udp w) with
    | Normal u => udp w' = u /\ unhandled w' = unhandled w
    | Throw e => udp w' = udp w /\ unhandled w' = unhandled w ++ [e]
    end.
Proof.
  intros Hr. unfold kLogFunction. rewrite Hr.
  destruct (Udp.send h _ (udp w)); eexists; split; try reflexivity; by simpl.
Qed.

End Client.

(** C9 fails on the code for the stream transport. The configuration of
    the README with the transport ['tcp'], which [TcpTransport] accepts,
    is refused by the constructor of the client with [Error: unsupported
    transport: tcp]; with the transport ['udp'] it makes a client on the
    datagram transport. *)
Theorem C9_tcp_is_not_selectable (h : Host) :
  (exists t, Tcp.constructor Fixture.tcp_options (Some (Ref 0)) = Normal t) /\
  constructor h (Object Fixture.tcp_options)
  = Throw (Error "unsupported transport: tcp") /\
  (exists w,
     constructor h (Object Fixture.udp_options) = Normal w /\
     kTransport (this w) = Some (Ref 0) /\
     Udp.constructor Fixture.udp_options (Some (Ref 0))
     = Normal (Udp.transport (udp w))).
Proof.
  split_and!.
  - eexists. reflexivity.
  - reflexivity.
  - eexists. split_and!; reflexivity.
Qed.

(** C10. [GelfClient.close] is not idempotent. On a client that has its
    transport the first call returns normally and clears the reference
    to the transport; from then on a second [close] throws a
    [TypeError], and so does every log function, while [close] of the
    transport itself, called again, still returns normally and changes
    nothing. *)
Theorem C10_client_close_is_not_idempotent (h : Host) (w : World) (r : ref) :
  kTransport (this w) = Some r ->
  exists w1,
    close w = Normal w1 /\
    kTransport (this w1) = None /\
    (exists e, close w1 = Throw (TypeError e)) /\
    Udp.close (udp w1) = Normal (udp w1) /\
    (forall short full additionalFields timestamp level,
       exists e,
         log h short full additionalFields timestamp level w1
         = Throw (TypeError e)) /\
    (forall lvl short full additionalFields timestamp,
       exists e,
         log_at h lvl short full additionalFields timestamp w1
         = Throw (TypeError e)).
Proof.
  intros Hr. unfold close. rewrite Hr. simpl.
  destruct (udp_close_spec (udp w)) as (u' & Hclose & Hagain & _).
  rewrite Hclose. simpl.
  eexists. split; [reflexivity|]. simpl. split_and!; try done.
  - eauto.
  - intros. unfold log, kLogFunction. simpl. eauto.
  - intros. unfold log_at, kLogFunction. simpl. eauto.
Qed.

(** C10 at the client of the README. *)
Lemma C10_witness :
  exists w1,
    close Fixture.client = Normal w1 /\
    kTransport (this w1) = None /\
    (exists e, close w1 = Throw (TypeError e)) /\
    Udp.close (udp w1) = Normal (udp w1) /\
    (forall short full additionalFields timestamp level,
       exists e,
         log Fixture.host short full additionalFields timestamp level w1
         = Throw (TypeError e)) /\
    (forall lvl short full additionalFields timestamp,
       exists e,
         log_at Fixture.host lvl short full additionalFields timestamp w1
         = Throw (TypeError e)).
Proof.
  apply (C10_client_close_is_not_idempotent Fixture.host Fixture.client (Ref 0)).
  reflexivity.
Defined.

(** The test 'validates constructor options' of test/index.js, as far
    as it is about the options of this constructor. *)
Example GelfClient_validates_constructor_options (h : Host) :
  constructor h Null = Throw (TypeError "options must be an object") /\
  constructor h (String "foo") = Throw (TypeError "options must be an object") /\
  constructor h (Object [("host", Number (Int 5))])
  = Throw (TypeError "host must be a string") /\
  constructor h (Object [("version", Number (Int 5))])
  = Throw (TypeError "version must be a string") /\
  constructor h (Object [("transport", Number (Int 5))])
  = Throw (TypeError "transport must be a string") /\
  constructor h (Object [("transport", String "xxx")])
  = Throw (Error "unsupported transport: xxx").
Proof. split_and!; reflexivity. Qed.

(** The client of the README is what the constructor makes of its
    configuration on a host of that name. *)
Example client_of_the_README :
  constructor Fixture.host (Object Fixture.options)
  = Normal
      {| this := {| host := "localhost"; version := "1.1";
                    kTransport := Some (Ref 0) |};
         udp := Udp.new {| Udp.bufferSize := 1400;
                           Udp.client := Some (Ref 0);
                           Udp.compression := "zlib";
                           Udp.host := "your-graylog-host";
                           Udp.port := Int 12201;
                           Udp.socket := None;
                           Udp.reuseBuffer := true |};
         unhandled := [] |}.
Proof. reflexivity. Qed.

End GelfTheory.


(* ===================================================================== *)
(** ** The datagram transport: the constructor, the limits and the life
       of the socket                                                      *)
(* ===================================================================== *)

Module UdpMore.
Import Udp UdpTheory Calls Cases.

(** X1. The constructor of the datagram transport returns a transport
    exactly when, after the defaults, [bufferSize] is a safe integer
    above 12, [compression] is ['none'] or ['zlib'], [graylogHost] is a
    string, [graylogPort] is a number of any value and [reuseBuffer] is a
    boolean; the transport then has these values, the client it was
    given and no socket. *)
Theorem X1_constructor_accepts
        (options : list (string * value)) (client : option ref)
        (t : UdpTransport) :
  constructor options client = Normal t <->
  exists z c h p r,
    get_default options "bufferSize" (Number (Int 1400)) = Number (Int z) /\
    12 < z <= 2 ^ 53 - 1 /\
    get_default options "compression" (String "zlib") = String c /\
    (c = "none" \/ c = "zlib") /\
    get_default options "graylogHost" Undefined = String h /\
    get_default options "graylogPort" Undefined = Number p /\
    get_default options "reuseBuffer" (Bool true) = Bool r /\
    t = {| bufferSize := z; client := client; compression := c; host := h;
           port := p; socket := None; reuseBuffer := r |}.
Proof.
  unfold constructor, kDefaultBufSize. split.
  - intros H.
    repeat case_match; try discriminate.
    all: injection H as <-.
    all: repeat match goal with
                | H : _ || _ = false |- _ => apply orb_false_elim in H as [? ?]
                | H : negb _ = false |- _ => apply negb_false_iff in H
                end.
    all: unfold number_leb, isSafeInteger, supportedCompression,
           kChunkHeaderSize in *; try discriminate.
    all: do 5 eexists; split_and!; try reflexivity; try lia.
    all: match goal with
         | H : _ || _ = true |- _ =>
           apply orb_true_iff in H as [H|H]; apply String.eqb_eq in H; auto
         end.
  - intros (z & c & h & p & r & -> & Hz & -> & Hc & -> & -> & -> & ->).
    simpl. unfold kChunkHeaderSize.
    destruct (Z.leb_spec z 0); [lia|].
    destruct (Z.leb_spec (Z.abs z) (2 ^ 53 - 1)); [|lia].
    destruct (Z.leb_spec z 12); [lia|]. simpl.
    by destruct Hc as [-> | ->].
Qed.

Section NotConnected.
Variable h : Host.

(** What [_send] and a turn of the loop of [send] do before they call
    the socket does not depend on the socket: where they get as far as
    the call with a socket, they throw on the call without one. *)
Lemma _send_socket_gone data chunk k b (w w1 r : World) :
  _send data chunk k b w1 = Normal r ->
  socket (transport w) = None ->
  _send data chunk k b w = Throw (TypeError "Cannot read property 'send' of null").
Proof.
  unfold _send. cbv zeta. unfold mbind, completion_bind.
  destruct (Buffer_copy _ _ _ _ _); simpl; [|discriminate].
  intros _ Hgone. unfold socket_send. by rewrite Hgone.
Qed.

Lemma send_fragment_socket_gone msg msgId m n size i (w w1 r : World) :
  send_fragment h msg msgId m n size i w1 = Normal r ->
  socket (transport w) = None ->
  send_fragment h msg msgId m n size i w
  = Throw (TypeError "Cannot read property 'send' of null").
Proof.
  unfold send_fragment. cbv zeta. unfold mbind, completion_bind.
  destruct (Buffer_copy msgId _ _ _ _); simpl; [|discriminate].
  destruct (Buffer_copy msg _ _ _ _); simpl; [|discriminate].
  intros _ Hgone. unfold socket_send. by rewrite Hgone.
Qed.

(** The same transport with a socket. *)
Let plugged (w : World) : World :=
  with_transport (with_socket (Some (Ref 0)) (transport w)) w.

Lemma send_socket_gone message w :
  socket (transport w) = None ->
  kChunkHeaderSize < bufferSize (transport w) ->
  let msg := serialize h (transport w) message in
  let numChunks :=
    Math_ceil_div (byteLength msg) (bufferSize (transport w) - kChunkHeaderSize) in
  byteLength msg <= bufferSize (transport w) \/ numChunks <= kMaxChunks ->
  send h message w = Throw (TypeError "Cannot read property 'send' of null").
Proof.
  intros Hgone Hbuf msg numChunks Hcase. unfold send. fold msg.
  destruct (Z.leb_spec (byteLength msg) (bufferSize (transport w)))
    as [Hshort|Hlong].
  { unfold socket_send. by rewrite Hgone. }
  destruct Hcase as [?|Hfew]; [lia|]. fold numChunks.
  destruct (Z.ltb_spec kMaxChunks numChunks); [lia|].
  pose proof (chunk_geometry h message w Hbuf Hlong) as (Hn & Hsize & Hm & Hgeo & Hgeo').
  fold msg numChunks in Hn, Hsize, Hm, Hgeo, Hgeo'.
  set (chunkSize := Math_ceil_div (byteLength msg + numChunks * kChunkHeaderSize)
                                  numChunks) in *.
  set (msgId := randomBytes h kMessageIdBytes).
  destruct (reuseBuffer (transport w)) eqn:Hreuse.
  - destruct (header_framed msgId numChunks chunkSize ltac:(lia)
                (length_randomBytes h kMessageIdBytes)
                (allocUnsafe h 0 chunkSize)) as (buf' & Hcopy & Hframed).
    { unfold byteLength. rewrite length_allocUnsafe.
      unfold kChunkHeaderSize in *. lia. }
    simpl. unfold mbind, completion_bind. rewrite Hcopy. simpl.
    destruct (_send_framed (transport (plugged w)) msg msgId numChunks chunkSize
                ltac:(lia) (Buffer_set kOffsetSequenceCount numChunks buf')
                0 (plugged w) (Ref 0))
      as (chunk' & Hsend & _); try done.
    { unfold kChunkHeaderSize in *. lia. }
    rewrite Z.mul_0_l, Z.sub_0_r in Hsend.
    by eapply _send_socket_gone.
  - destruct (Z.to_nat numChunks) as [|count] eqn:Hcount; [lia|].
    simpl. unfold mbind, completion_bind.
    destruct (send_fragment_spec h (transport (plugged w)) msg msgId
                (bufferSize (transport w) - kChunkHeaderSize) numChunks chunkSize
                (Ref 0) eq_refl ltac:(lia) (length_randomBytes h kMessageIdBytes)
                Hm Hgeo 0 (plugged w) eq_refl ltac:(lia))
      as (d & Hsend & _).
    by rewrite (send_fragment_socket_gone _ _ _ _ _ _ w _ _ Hsend Hgone).
Qed.

End NotConnected.

(** X6. On a transport without a socket, before [connect] or after
    [close], [send] of a message that is not rejected as too large throws
    a [TypeError] (the promise it returns is rejected) before anything is
    sent; a message that is too large is reported on the client as on a
    connected transport, and throws a [TypeError] as well when the client
    is gone, as it is after [close]. *)
Theorem X6_send_without_socket
        (h : Host) (message : value) (w : World) :
  let this := transport w in
  let msg := serialize h this message in
  let numChunks :=
    Math_ceil_div (byteLength msg) (bufferSize this - kChunkHeaderSize) in
  socket this = None ->
  kChunkHeaderSize < bufferSize this ->
  (byteLength msg <= bufferSize this \/ numChunks <= kMaxChunks ->
   send h message w
   = Throw (TypeError "Cannot read property 'send' of null")) /\
  (bufferSize this < byteLength msg -> kMaxChunks < numChunks ->
   send h message w
   = match client this with
     | Some _ =>
       Normal {| transport := this; sent := sent w;
                 emitted := emitted w ++ [Error "message too large"];
                 pending := pending w; sockets := sockets w;
                 closed := closed w |}
     | None => Throw (TypeError "Cannot read property 'emit' of null")
     end).
Proof.
  intros this msg numChunks Hgone Hbuf. split.
  - intros Hcase. by apply send_socket_gone.
  - intros Hlong Hmany. unfold send. fold this msg numChunks.
    destruct (Z.leb_spec (byteLength msg) (bufferSize this)); [lia|].
    destruct (Z.ltb_spec kMaxChunks numChunks); [|lia].
    unfold client_emit. fold this. by destruct (client this).
Qed.


(** X6 at the transport of the tests before [connect]. *)
Lemma X6_witness :
  (byteLength (serialize Fixture.host (transport (udp_new 13 true)) Fixture.x12)
   <= bufferSize (transport (udp_new 13 true)) \/
   Math_ceil_div
     (byteLength (serialize Fixture.host (transport (udp_new 13 true))
                            Fixture.x12))
     (bufferSize (transport (udp_new 13 true)) - kChunkHeaderSize)
   <= kMaxChunks ->
   send Fixture.host Fixture.x12 (udp_new 13 true)
   = Throw (TypeError "Cannot read property 'send' of null")) /\
  (bufferSize (transport (udp_new 13 true))
   < byteLength (serialize Fixture.host (transport (udp_new 13 true))
                           Fixture.x12) ->
   kMaxChunks
   < Math_ceil_div
       (byteLength (serialize Fixture.host (transport (udp_new 13 true))
                              Fixture.x12))
       (bufferSize (transport (udp_new 13 true)) - kChunkHeaderSize) ->
   send Fixture.host Fixture.x12 (udp_new 13 true)
   = match client (transport (udp_new 13 true)) with
     | Some _ =>
       Normal {| transport := transport (udp_new 13 true);
                 sent := sent (udp_new 13 true);
                 emitted := emitted (udp_new 13 true)
                            ++ [Error "message too large"];
                 pending := pending (udp_new 13 true);
                 sockets := sockets (udp_new 13 true);
                 closed := closed (udp_new 13 true) |}
     | None => Throw (TypeError "Cannot read property 'emit' of null")
     end).
Proof.
  apply (X6_send_without_socket Fixture.host Fixture.x12 (udp_new 13 true));
    vm_compute; reflexivity.
Defined.

Section Threshold.

Lemma numChunks_over L m :
  0 < m -> (kMaxChunks < Math_ceil_div L m <-> kMaxChunks * m < L).
Proof.
  intros Hm. pose proof (Math_ceil_div_bounds L m Hm).
  unfold kMaxChunks. split; intros; nia.
Qed.

End Threshold.

(** X2. [send] rejects a message as too large exactly when its
    serialized length exceeds 128 times what a chunk holds,
    [128 * (bufferSize - 12)] bytes: a longer message is reported on the
    client with ['message too large'] and nothing is sent; a message up
    to that length is sent, in one datagram or more, and nothing is
    reported. *)
Theorem X2_largest_message
        (h : Host) (message : value) (w0 : World) (s c : ref) :
  let this := transport w0 in
  let msg := serialize h this message in
  socket this = Some s ->
  client this = Some c ->
  kChunkHeaderSize < bufferSize this ->
  pending w0 = [] ->
  (kMaxChunks * (bufferSize this - kChunkHeaderSize) < byteLength msg ->
   exists w',
     send h message w0 = Normal w' /\
     sent w' = sent w0 /\
     emitted w' = emitted w0 ++ [Error "message too large"]) /\
  (byteLength msg <= kMaxChunks * (bufferSize this - kChunkHeaderSize) ->
   exists w' d frags,
     send h message w0 = Normal w' /\
     sent w' = sent w0 ++ d :: frags /\
     emitted w' = emitted w0).
Proof.
  intros this msg Hsock Hclient Hbuf Hidle.
  pose proof (numChunks_over (byteLength msg)
                (bufferSize this - kChunkHeaderSize) ltac:(lia)) as Hover.
  unfold kMaxChunks, kChunkHeaderSize in *. split.
  - intros Hlong.
    eexists. split.
    + apply (send_too_large h message w0 c Hclient); fold this msg.
      * lia.
      * unfold kMaxChunks, kChunkHeaderSize. apply Hover. lia.
    + by simpl.
  - intros Hfits.
    destruct (decide (byteLength msg <= bufferSize this)) as [Hshort|Hlong].
    + eexists _, _, []. split; [by apply (send_unchunked h message w0 s)|].
      by simpl.
    + assert (Hlong' : bufferSize this < byteLength msg) by lia.
      assert (Hfew : Math_ceil_div (byteLength msg) (bufferSize this - 12) <= 128).
      { destruct (decide (128 < Math_ceil_div (byteLength msg)
                                              (bufferSize this - 12)))
          as [Hmany|]; [|lia].
        apply Hover in Hmany. lia. }
      destruct (reuseBuffer this) eqn:Hreuse.
      * destruct (send_reusing h message w0 s Hsock Hbuf Hlong'
                    Hfew Hidle Hreuse)
          as (w1 & Hsend & _ & He & _ & _ & frags & chunk & Hsent & Hlen & _).
        destruct frags as [|d frags]; [simpl in Hlen; lia|].
        by exists w1, d, frags.
      * destruct (send_copying h message w0 s Hsock Hbuf Hlong'
                    Hfew Hidle Hreuse)
          as (w1 & Hsend & _ & He & _ & _ & _ & frags & Hsent & Hlen & _).
        pose proof (chunk_geometry h message w0 Hbuf Hlong') as (Hn & _).
        destruct frags as [|d frags].
        { simpl in Hlen. cbv zeta in Hn. subst this msg.
          unfold kChunkHeaderSize in *. lia. }
        exists w1, d, frags. split_and!; try done. by rewrite He, app_nil_r.
Qed.

(** X2 at the transport of the tests: 128 bytes is the most it sends. *)
Lemma X2_witness :
  (kMaxChunks * (bufferSize (transport (Fixture.udp 13 true)) - kChunkHeaderSize)
   < byteLength (serialize Fixture.host (transport (Fixture.udp 13 true))
                           (Fixture.xs 126)) ->
   exists w',
     send Fixture.host (Fixture.xs 126) (Fixture.udp 13 true) = Normal w' /\
     sent w' = sent (Fixture.udp 13 true) /\
     emitted w' = emitted (Fixture.udp 13 true) ++ [Error "message too large"]) /\
  (byteLength (serialize Fixture.host (transport (Fixture.udp 13 true))
                         (Fixture.xs 126))
   <= kMaxChunks * (bufferSize (transport (Fixture.udp 13 true)) - kChunkHeaderSize) ->
   exists w' d frags,
     send Fixture.host (Fixture.xs 126) (Fixture.udp 13 true) = Normal w' /\
     sent w' = sent (Fixture.udp 13 true) ++ d :: frags /\
     emitted w' = emitted (Fixture.udp 13 true)).
Proof.
  apply (X2_largest_message Fixture.host (Fixture.xs 126) (Fixture.udp 13 true)
                            (Ref 0) (Ref 0));
    vm_compute; reflexivity.
Defined.


(** X3. When the buffer is reused and every write succeeds, the payloads
    of the fragments put together in their order start with the whole
    serialized message; what follows it, fewer bytes than there are
    chunks, is what the last fragment left in the buffer from the one
    before. They are the message itself exactly when its length is the
    number of chunks times what a chunk holds. *)
Theorem X3_reused_buffer_carries_the_message
        (h : Host) (message : value) (w0 : World) (s : ref) :
  let this := transport w0 in
  let msg := serialize h this message in
  let numChunks :=
    Math_ceil_div (byteLength msg) (bufferSize this - kChunkHeaderSize) in
  let chunkSize :=
    Math_ceil_div (byteLength msg + numChunks * kChunkHeaderSize) numChunks in
  socket this = Some s ->
  kChunkHeaderSize < bufferSize this ->
  pending w0 = [] ->
  reuseBuffer this = true ->
  bufferSize this < byteLength msg ->
  numChunks <= kMaxChunks ->
  exists w' frags,
    (w1 ← send h message w0;
     deliver (replicate (Z.to_nat numChunks) None) w1) = Normal w' /\
    sent w' = sent w0 ++ frags /\
    take (length msg) (reassemble frags) = msg /\
    0 <= Z.of_nat (length (reassemble frags)) - byteLength msg < numChunks /\
    (reassemble frags = msg <->
     byteLength msg = numChunks * (chunkSize - kChunkHeaderSize)).
Proof.
  intros this msg numChunks chunkSize Hsock Hbuf Hidle Hreuse Hlong Hfew.
  destruct (reassembly_starts_with_message h message w0 s Hsock Hbuf Hlong
              Hfew Hidle (or_introl Hreuse))
    as (w' & frags & Hrun & Hsent & Htake & Hlength).
  fold this msg numChunks chunkSize in Htake, Hlength.
  pose proof (chunk_geometry h message w0 Hbuf Hlong) as (Hn & _).
  fold this msg numChunks in Hn.
  pose proof (Math_ceil_div_bounds
                (byteLength msg + numChunks * kChunkHeaderSize) numChunks
                ltac:(lia)) as Hceil.
  fold chunkSize in Hceil.
  exists w', frags. split_and!; try done.
  - unfold kChunkHeaderSize in *. nia.
  - unfold kChunkHeaderSize in *. nia.
  - split.
    + intros Heq. rewrite Heq in Hlength. exact Hlength.
    + intros Hfull.
      transitivity (take (length msg) (reassemble frags)); [|exact Htake].
      symmetry. apply take_ge. unfold byteLength in *. lia.
Qed.

(** X3 at 23 bytes through a buffer of 22: one byte follows the
    message. *)
Lemma X3_witness :
  exists w' frags,
    (w1 ← send Fixture.host Fixture.a21 (Fixture.udp 22 true);
     deliver (replicate 3 None) w1) = Normal w' /\
    sent w' = sent (Fixture.udp 22 true) ++ frags /\
    take (length (serialize Fixture.host (transport (Fixture.udp 22 true))
                            Fixture.a21))
         (reassemble frags)
    = serialize Fixture.host (transport (Fixture.udp 22 true)) Fixture.a21 /\
    0 <= Z.of_nat (length (reassemble frags))
         - byteLength (serialize Fixture.host (transport (Fixture.udp 22 true))
                                 Fixture.a21) < 3 /\
    (reassemble frags
     = serialize Fixture.host (transport (Fixture.udp 22 true)) Fixture.a21 <->
     byteLength (serialize Fixture.host (transport (Fixture.udp 22 true))
                           Fixture.a21) = 3 * (20 - kChunkHeaderSize)).
Proof.
  apply (X3_reused_buffer_carries_the_message
           Fixture.host Fixture.a21 (Fixture.udp 22 true) (Ref 0));
    vm_compute; first [reflexivity | discriminate].
Defined.

(** X4. When the serialized message fills every chunk, its length being
    the number of chunks times [bufferSize - 12], and every write
    succeeds, the payloads of the fragments put together in their order
    are the message, byte for byte, whether the buffer is reused or
    not. *)
Theorem X4_full_chunks_reassemble
        (h : Host) (message : value) (w0 : World) (s : ref) :
  let this := transport w0 in
  let msg := serialize h this message in
  let numChunks :=
    Math_ceil_div (byteLength msg) (bufferSize this - kChunkHeaderSize) in
  socket this = Some s ->
  kChunkHeaderSize < bufferSize this ->
  pending w0 = [] ->
  bufferSize this < byteLength msg ->
  numChunks <= kMaxChunks ->
  byteLength msg = numChunks * (bufferSize this - kChunkHeaderSize) ->
  exists w' frags,
    (w1 ← send h message w0;
     deliver (replicate (Z.to_nat numChunks) None) w1) = Normal w' /\
    sent w' = sent w0 ++ frags /\
    Z.of_nat (length frags) = numChunks /\
    reassemble frags = msg.
Proof.
  intros this msg numChunks Hsock Hbuf Hidle Hlong Hfew Hfull.
  destruct (reassembly_exact_when_chunks_are_full h message w0 s Hsock Hbuf
              Hlong Hfew Hidle Hfull)
    as (w' & frags & Hrun & Hsent & Hexact).
  destruct (send_all h message w0 s Hsock Hbuf Hlong Hfew Hidle)
    as (w'' & Hrun' & _ & _ & _ & _ & _ & frags' & Hsent' & Hlen & _).
  fold this msg numChunks in Hrun, Hrun', Hlen.
  assert (w'' = w') as -> by congruence.
  rewrite Hsent in Hsent'. apply app_inv_head in Hsent' as <-.
  by exists w', frags.
Qed.

(** X4 at the chunked case of the tests, without reuse of the buffer. *)
Lemma X4_witness :
  exists w' frags,
    (w1 ← send Fixture.host Fixture.x12 (Fixture.udp 13 false);
     deliver (replicate 14 None) w1) = Normal w' /\
    sent w' = sent (Fixture.udp 13 false) ++ frags /\
    Z.of_nat (length frags) = 14 /\
    reassemble frags
    = serialize Fixture.host (transport (Fixture.udp 13 false)) Fixture.x12.
Proof.
  apply (X4_full_chunks_reassemble
           Fixture.host Fixture.x12 (Fixture.udp 13 false) (Ref 0));
    vm_compute; first [reflexivity | discriminate].
Defined.


(** X5. [close] while a message is going out through the reused buffer
    does not stop it cleanly. With fragment [j] in flight and more to
    send, [close] returns normally and sends nothing; when the write
    then completes without error the callback calls [send] on the socket
    that is gone and throws a [TypeError], and when it completes with an
    error the callback calls [emit] on the client that is gone and throws
    a [TypeError]: the fragments after [j] are never dispatched. *)
Theorem X5_close_with_a_write_in_flight
        (h : Host) (message : value) (w0 : World) (s : ref) (j : nat) :
  let this := transport w0 in
  let msg := serialize h this message in
  let numChunks :=
    Math_ceil_div (byteLength msg) (bufferSize this - kChunkHeaderSize) in
  socket this = Some s ->
  kChunkHeaderSize < bufferSize this ->
  pending w0 = [] ->
  reuseBuffer this = true ->
  bufferSize this < byteLength msg ->
  numChunks <= kMaxChunks ->
  Z.of_nat j + 1 < numChunks ->
  exists wj wc,
    (w1 ← send h message w0; deliver (replicate j None) w1) = Normal wj /\
    close wj = Normal wc /\
    sent wc = sent wj /\ length (sent wj) = (length (sent w0) + S j)%nat /\
    emitted wc = emitted w0 /\
    complete None wc
    = Throw (TypeError "Cannot read property 'send' of null") /\
    forall e,
      complete (Some e) wc
      = Throw (TypeError "Cannot read property 'emit' of null").
Proof.
  intros this msg numChunks Hsock Hbuf Hidle Hreuse Hlong Hfew Hj.
  destruct (send_reusing h message w0 s Hsock Hbuf Hlong Hfew Hidle Hreuse)
    as (w1 & Hsend & Hw1).
  destruct (deliver_in_flight h message w0 s Hsock Hbuf Hlong w1 j Hreuse Hw1
              ltac:(fold this msg numChunks; lia))
    as (wj & Hrun & Ht & He & _ & _ & frags & chunk & Hsent & Hlen & _ & _
        & Hframed & Hpend).
  pose proof (chunk_geometry h message w0 Hbuf Hlong)
    as (Hn & Hsize & _ & _ & Hgeo).
  fold this msg numChunks in Hframed, Hpend, Hsize, Hgeo, Hn.
  set (chunkSize := Math_ceil_div (byteLength msg + numChunks * kChunkHeaderSize)
                                  numChunks) in *.
  assert (Hrest : 0 < byteLength msg - (Z.of_nat j + 1) * (chunkSize - kChunkHeaderSize))
    by (unfold kChunkHeaderSize in *; nia).
  assert (Hsockj : socket (transport wj) = Some s) by by rewrite Ht.
  destruct (_send_framed (transport w0) msg (randomBytes h kMessageIdBytes)
              numChunks chunkSize ltac:(lia) chunk (Z.of_nat j + 1) wj s
              Hsockj Ht Hframed ltac:(lia) Hrest) as (chunk' & Hnext & _).
  eexists wj, _. split_and!.
  - rewrite Hsend. exact Hrun.
  - unfold close. rewrite Hsockj. reflexivity.
  - done.
  - rewrite Hsent, length_app. lia.
  - done.
  - unfold complete. simpl. rewrite Hpend. unfold _send_callback. simpl.
    replace (byteLength msg - Z.of_nat j * (chunkSize - kChunkHeaderSize)
             - Z.min (byteLength msg - Z.of_nat j * (chunkSize - kChunkHeaderSize))
                     (chunkSize - kChunkHeaderSize))
      with (byteLength msg - (Z.of_nat j + 1) * (chunkSize - kChunkHeaderSize))
      by lia.
    destruct (Z.ltb_spec 0 (byteLength msg - (Z.of_nat j + 1)
                                             * (chunkSize - kChunkHeaderSize)));
      [|lia].
    by eapply _send_socket_gone.
  - intros e. unfold complete. simpl. rewrite Hpend. done.
Qed.

(** X5 at the chunked case of the tests, closed with fragment 3 in
    flight. *)
Lemma X5_witness :
  exists wj wc,
    (w1 ← send Fixture.host Fixture.x12 (Fixture.udp 13 true);
     deliver (replicate 3 None) w1) = Normal wj /\
    close wj = Normal wc /\
    sent wc = sent wj /\
    length (sent wj) = (length (sent (Fixture.udp 13 true)) + 4)%nat /\
    emitted wc = emitted (Fixture.udp 13 true) /\
    complete None wc
    = Throw (TypeError "Cannot read property 'send' of null") /\
    forall e,
      complete (Some e) wc
      = Throw (TypeError "Cannot read property 'emit' of null").
Proof.
  apply (X5_close_with_a_write_in_flight
           Fixture.host Fixture.x12 (Fixture.udp 13 true) (Ref 0) 3);
    vm_compute; first [reflexivity | discriminate].
Defined.

Section Life.

(** The sockets in use and closed are among those created, and the one
    in use is not closed. *)
Let tidy (w : World) : Prop :=
  NoDup (closed w) /\
  (forall i, Ref i ∈ closed w -> (i < sockets w)%nat) /\
  (forall i, socket (transport w) = Some (Ref i) ->
     (i < sockets w)%nat /\ Ref i ∉ closed w).

Lemma call_step_tidy c w :
  tidy w ->
  exists w', call_step c w = Normal w' /\ tidy w' /\
             sent w' = sent w /\ emitted w' = emitted w /\
             pending w' = pending w /\
             (length (closed w') <= length (closed w) + 1)%nat /\
             (c = Close -> socket (transport w') = None /\
                           client (transport w') = match socket (transport w) with
                                                   | Some _ => None
                                                   | None => client (transport w)
                                                   end).
Proof.
  intros (Hnd & Hclosed & Hsock). destruct c; simpl.
  - eexists. split; [reflexivity|]. unfold tidy. simpl. split_and!; try done.
    + intros i Hi. specialize (Hclosed i Hi). lia.
    + intros i [= <-]. split; [lia|]. intros Hi. specialize (Hclosed _ Hi). lia.
    + lia.
  - unfold close. destruct (socket (transport w)) as [[i]|] eqn:Hs.
    + destruct (Hsock i eq_refl) as [Hi Hnew].
      eexists. split; [reflexivity|]. unfold tidy. simpl. split_and!; try done.
      * apply NoDup_app. split_and!; [done | | apply NoDup_singleton].
        intros x Hx ->%list_elem_of_singleton. done.
      * intros k [Hk | Hk]%elem_of_app; [auto|].
        apply list_elem_of_singleton in Hk. by injection Hk as ->.
      * rewrite length_app. simpl. lia.
    + exists w. unfold tidy. rewrite Hs. split_and!; try done. lia.
Qed.

Lemma calls_tidy cs : forall w,
  tidy w ->
  exists w', calls cs w = Normal w' /\ tidy w' /\
             sent w' = sent w /\ emitted w' = emitted w /\
             pending w' = pending w /\
             (length (closed w') <= length (closed w) + length cs)%nat.
Proof.
  induction cs as [|c cs IH]; intros w Hw.
  - exists w. split_and!; try done. simpl. lia.
  - destruct (call_step_tidy c w Hw) as (w1 & Hstep & Hw1 & Hs & He & Hp & Hl & _).
    destruct (IH w1 Hw1) as (w' & Hrun & Hw' & Hs' & He' & Hp' & Hl').
    exists w'. simpl. rewrite Hstep. simpl.
    split_and!; try done; try congruence. simpl. lia.
Qed.

(** A socket that the transport has let go of without closing it is
    not held again and not closed later. *)
Lemma calls_left_behind cs : forall w i,
  tidy w -> (i < sockets w)%nat ->
  socket (transport w) <> Some (Ref i) -> Ref i ∉ closed w ->
  exists w', calls cs w = Normal w' /\
             socket (transport w') <> Some (Ref i) /\ Ref i ∉ closed w'.
Proof.
  induction cs as [|c cs IH]; intros w i Hw Hi Hheld Hopen.
  - by exists w.
  - destruct (call_step_tidy c w Hw) as (w1 & Hstep & Hw1 & _).
    simpl. rewrite Hstep. simpl.
    destruct c; simpl in Hstep.
    + injection Hstep as <-. apply IH; simpl; [done|lia| |done].
      intros [= Heq]. lia.
    + unfold close in Hstep.
      destruct (socket (transport w)) as [s|] eqn:Hs; injection Hstep as <-.
      * apply IH; simpl; [done|lia|done|].
        intros [Hin|Hin]%elem_of_app; [done|].
        apply list_elem_of_singleton in Hin. congruence.
      * apply IH; try done. by rewrite Hs.
Qed.

End Life.

(** X7. Whatever calls of [connect] and [close] are made on a transport
    fresh from its constructor, and in whatever order, none throws,
    nothing is sent or reported, and no socket is closed twice:
    [socket.close] is only ever called on the socket the transport
    holds, which it lets go of in the same call. *)
Theorem X7_connect_and_close_in_any_order
        (options : list (string * value)) (client : option ref)
        (t : UdpTransport) (cs : list call) :
  constructor options client = Normal t ->
  exists w',
    calls cs (new t) = Normal w' /\
    NoDup (closed w') /\
    (forall i, Ref i ∈ closed w' -> (i < sockets w')%nat) /\
    (forall r, socket (transport w') = Some r -> r ∉ closed w') /\
    sent w' = [] /\ emitted w' = [] /\ pending w' = [].
Proof.
  intros Ht.
  destruct (constructor_valid options client t Ht) as (_ & _ & Hs & _).
  destruct (calls_tidy cs (new t)) as (w' & Hrun & (Hnd & Hc & Hsock) & H1 & H2 & H3 & _).
  { split_and!; simpl.
    - apply NoDup_nil_2.
    - intros i Hi. by apply elem_of_nil in Hi.
    - rewrite Hs. done. }
  exists w'. split_and!; try done.
  intros [i] Hi. by apply Hsock.
Qed.

(** X7 at the calls of the test 'supports multiple calls to close()'
    after a second [connect]. *)
Lemma X7_witness :
  exists w',
    calls [Close; Close; Connect; Connect; Close; Close]
          (new {| bufferSize := 1400; client := None; compression := "zlib";
                  host := "localhost"; port := Int 9000; socket := None;
                  reuseBuffer := true |}) = Normal w' /\
    NoDup (closed w') /\
    (forall i, Ref i ∈ closed w' -> (i < sockets w')%nat) /\
    (forall r, socket (transport w') = Some r -> r ∉ closed w') /\
    sent w' = [] /\ emitted w' = [] /\ pending w' = [].
Proof.
  apply (X7_connect_and_close_in_any_order
           [("graylogHost", String "localhost");
            ("graylogPort", Number (Int 9000))] None).
  reflexivity.
Defined.

(** X8. A second [connect] without a [close] in between leaves the
    first socket open for good: [connect] replaces the socket the
    transport holds without closing it, and [close] only closes the one
    it holds, so whatever calls of [connect] and [close] follow, the
    socket that was replaced is never held again and never closed. *)
Theorem X8_replaced_socket_stays_open
        (options : list (string * value)) (client : option ref)
        (t : UdpTransport) (cs1 cs2 : list call) (w1 : World) (r : ref) :
  constructor options client = Normal t ->
  calls cs1 (new t) = Normal w1 ->
  socket (transport w1) = Some r ->
  exists w',
    calls (Connect :: cs2) w1 = Normal w' /\
    socket (transport w') <> Some r /\ r ∉ closed w'.
Proof.
  intros Ht Hrun Hr. destruct r as [i].
  destruct (constructor_valid options client t Ht) as (_ & _ & Hs & _).
  destruct (calls_tidy cs1 (new t)) as (w1' & Hrun' & Hw1 & _).
  { split_and!; simpl.
    - apply NoDup_nil_2.
    - intros k Hk. by apply elem_of_nil in Hk.
    - rewrite Hs. done. }
  rewrite Hrun in Hrun'. injection Hrun' as <-.
  pose proof Hw1 as (_ & _ & Hheld). destruct (Hheld i Hr) as [Hi Hopen].
  destruct (call_step_tidy Connect w1 Hw1) as (w2 & Hstep & Hw2 & _).
  simpl in Hstep. injection Hstep as <-.
  apply (calls_left_behind cs2 (connect w1) i Hw2); simpl; [lia| |done].
  intros [= Heq]. lia.
Qed.

(** X8 at a transport connected twice and then closed twice. *)
Lemma X8_witness :
  exists w',
    calls [Connect; Close; Close] (connect (udp_new 1400 true)) = Normal w' /\
    socket (transport w') <> Some (Ref 0) /\ Ref 0 ∉ closed w'.
Proof.
  apply (X8_replaced_socket_stays_open
           [("graylogHost", String "localhost");
            ("graylogPort", Number (Int 9000));
            ("compression", String "none")] (Some (Ref 0))
           (transport (udp_new 1400 true)) [Connect] [Close; Close]
           (connect (udp_new 1400 true)) (Ref 0));
    reflexivity.
Defined.

End UdpMore.


(* ===================================================================== *)
(** ** The stream transport: the constructor, framing and the closed
       transport                                                          *)
(* ===================================================================== *)

(** ** Objects: reading what was assigned *)

Module Objects.

Lemma get_set_eq props k v : get (set props k v) k = v.
Proof.
  induction props as [|[k' v'] props IH]; simpl.
  - by rewrite String.eqb_refl.
  - destruct (String.eqb_spec k' k) as [->|Hne]; simpl.
    + by rewrite String.eqb_refl.
    + by destruct (String.eqb_spec k' k).
Qed.

Lemma get_set_ne props k v k' : k <> k' -> get (set props k v) k' = get props k'.
Proof.
  intros Hne. induction props as [|[k0 v0] props IH]; simpl.
  - by destruct (String.eqb_spec k k').
  - destruct (String.eqb_spec k0 k) as [->|Hne0]; simpl.
    + by destruct (String.eqb_spec k k').
    + by rewrite IH.
Qed.

(** Assignment keeps the properties in their places, and puts a new one
    last. *)
Lemma set_keys props k v :
  (set props k v).*1 = if decide (k ∈ props.*1) then props.*1 else props.*1 ++ [k].
Proof.
  induction props as [|[k0 v0] props IH]; csimpl.
  - destruct (decide (k ∈ [])) as [H|H]; [by apply elem_of_nil in H | done].
  - destruct (String.eqb_spec k0 k) as [->|Hne0]; csimpl.
    + destruct (decide (k ∈ k :: props.*1)) as [H|H]; [done|].
      exfalso. apply H. left.
    + rewrite IH.
      destruct (decide (k ∈ props.*1)) as [H|H];
        destruct (decide (k ∈ k0 :: props.*1)) as [H'|H']; try done.
      * exfalso. apply H'. by right.
      * apply elem_of_cons in H' as [?|?]; [congruence | done].
Qed.

Lemma get_not_in props k : k ∉ props.*1 -> get props k = Undefined.
Proof.
  induction props as [|[k0 v0] props IH]; csimpl; [done|].
  intros Hk. apply not_elem_of_cons in Hk as [Hne Hk].
  destruct (String.eqb_spec k0 k); [congruence | auto].
Qed.

End Objects.

Module TcpMore.
Import Tcp TcpTheory Objects Cases.

(** What the constructor has checked when it returns. *)
Lemma constructor_inv
      (options : list (string * value)) (client : option ref)
      (t : TcpTransport) :
  constructor options client = Normal t ->
  exists h p z so,
    get_default options "graylogHost" Undefined = String h /\
    get_default options "graylogPort" Undefined = Number p /\
    get_default options "maxBacklogSize" (Number (Int 1024)) = Number (Int z) /\
    0 <= z <= 2 ^ 53 - 1 /\
    get_default options "socketOptions" (Object []) = so /\
    isNull so = false /\ typeof so = "object" /\
    t = {| backlog := Some []; canAcceptData := true; client := client;
           host := h; maxBacklogSize := z; port := p; socket := None;
           socketOptions :=
             Some (set (set (own_props so) "port" (Number p))
                       "host" (String h)) |}.
Proof.
  unfold constructor. intros H.
  repeat case_match; try discriminate.
  all: injection H as <-.
  all: repeat match goal with
              | H : _ || _ = false |- _ => apply orb_false_elim in H as [? ?]
              | H : negb _ = false |- _ => apply negb_false_iff in H
              end.
  all: unfold number_ltb, isSafeInteger in *; try discriminate.
  all: match goal with
       | H : isNull ?so = false, H' : String.eqb (typeof ?so) _ = true |- _ =>
         apply String.eqb_eq in H'
       end.
  all: do 4 eexists; split_and!; try reflexivity; try lia; eauto.
Qed.

(** X9. The constructor of the stream transport returns a transport
    exactly when [graylogHost] is a string, [graylogPort] is a number
    of any value and, after the defaults, [maxBacklogSize] is a safe
    integer that is not negative and [socketOptions] is an object; the
    transport then has an empty backlog, accepts data, has no socket,
    and its socket options are those given with [port] and [host] set
    from [graylogPort] and [graylogHost]. *)
Theorem X9_constructor_accepts
        (options : list (string * value)) (client : option ref)
        (t : TcpTransport) :
  constructor options client = Normal t <->
  exists h p z so,
    get_default options "graylogHost" Undefined = String h /\
    get_default options "graylogPort" Undefined = Number p /\
    get_default options "maxBacklogSize" (Number (Int 1024)) = Number (Int z) /\
    0 <= z <= 2 ^ 53 - 1 /\
    get_default options "socketOptions" (Object []) = so /\
    isNull so = false /\ typeof so = "object" /\
    t = {| backlog := Some []; canAcceptData := true; client := client;
           host := h; maxBacklogSize := z; port := p; socket := None;
           socketOptions :=
             Some (set (set (own_props so) "port" (Number p))
                       "host" (String h)) |}.
Proof.
  split; [apply constructor_inv|].
  intros (h & p & z & so & Hh & Hp & Hz & Hrange & Hso & Hnull & Htype & ->).
  unfold constructor. rewrite Hh, Hp, Hz, Hso. simpl.
  destruct (Z.ltb_spec z 0); [lia|].
  destruct (Z.leb_spec (Z.abs z) (2 ^ 53 - 1)); [|lia]. simpl.
  by rewrite Hnull, Htype.
Qed.

(** X10. In the socket options of a transport that the constructor has
    made, [host] and [port] are the [graylogHost] and [graylogPort] of
    the options, whatever the [socketOptions] given say of them, and
    every other property reads as in the [socketOptions] given. *)
Theorem X10_socket_options_keep_the_destination
        (options : list (string * value)) (client : option ref)
        (t : TcpTransport) :
  constructor options client = Normal t ->
  exists so,
    socketOptions t = Some so /\
    get so "host" = get options "graylogHost" /\
    get so "host" = String (host t) /\
    get so "port" = get options "graylogPort" /\
    get so "port" = Number (port t) /\
    forall k, k <> "host" -> k <> "port" ->
      get so k
      = get (own_props (get_default options "socketOptions" (Object []))) k.
Proof.
  intros Ht. apply constructor_inv in Ht
    as (h & p & z & so & Hh & Hp & _ & _ & Hso & _ & _ & ->).
  eexists. split; [reflexivity|]. simpl.
  assert (Hh' : get options "graylogHost" = String h).
  { unfold get_default in Hh. by destruct (get options "graylogHost"). }
  assert (Hp' : get options "graylogPort" = Number p).
  { unfold get_default in Hp. by destruct (get options "graylogPort"). }
  rewrite Hh', Hp', Hso. split_and!.
  - apply get_set_eq.
  - apply get_set_eq.
  - rewrite get_set_ne by done. apply get_set_eq.
  - rewrite get_set_ne by done. apply get_set_eq.
  - intros k Hk1 Hk2. by rewrite !get_set_ne by done.
Qed.

(** X10 at options whose [socketOptions] name another destination. *)
Lemma X10_witness :
  exists so,
    socketOptions tcp_elsewhere_t = Some so /\
    get so "host" = get tcp_elsewhere "graylogHost" /\
    get so "host" = String (host tcp_elsewhere_t) /\
    get so "port" = get tcp_elsewhere "graylogPort" /\
    get so "port" = Number (port tcp_elsewhere_t) /\
    forall k, k <> "host" -> k <> "port" ->
      get so k
      = get (own_props (get_default tcp_elsewhere "socketOptions" (Object []))) k.
Proof.
  apply (X10_socket_options_keep_the_destination tcp_elsewhere (Some (Ref 0))).
  reflexivity.
Defined.


Section Closed.
Variable h : Host.

(** X11. Once a connected stream transport is closed, every later call
    of [send] throws a [TypeError], and so do the handlers of
    ['drain'] and of ['error'] if the socket still emits these events:
    the transport has let go of its socket, its backlog and its
    client. *)
Theorem X11_closed_transport_throws (w : World) (s : ref) :
  socket (transport w) = Some s ->
  exists w',
    close w = Normal w' /\
    (forall message, exists e, send h message w' = Throw (TypeError e)) /\
    (exists e, on_drain w' = Throw (TypeError e)) /\
    (forall err, exists e, on_error err w' = Throw (TypeError e)).
Proof.
  intros Hs. unfold close. simpl. rewrite Hs.
  eexists. split; [reflexivity|]. split_and!.
  - intros message. unfold send, socket_write. simpl.
    destruct (canAcceptData (transport w)); simpl; eauto.
  - unfold on_drain. simpl. eauto.
  - intros err. unfold on_error, client_emit. simpl. eauto.
Qed.

End Closed.

(** X11 at the transport of the tests with two frames queued. *)
Lemma X11_witness :
  exists w',
    close Fixture.tcp_queued = Normal w' /\
    (forall message,
       exists e, send Fixture.host message w' = Throw (TypeError e)) /\
    (exists e, on_drain w' = Throw (TypeError e)) /\
    (forall err, exists e, on_error err w' = Throw (TypeError e)).
Proof.
  apply (X11_closed_transport_throws Fixture.host Fixture.tcp_queued (Ref 0)).
  reflexivity.
Defined.

Section Framing.
Variable h : Host.

Lemma list_byte_of_string_app s1 s2 :
  String.list_byte_of_string (s1 +:+ s2)
  = String.list_byte_of_string s1 ++ String.list_byte_of_string s2.
Proof.
  unfold String.list_byte_of_string.
  induction s1 as [|a s1 IH]; simpl; [done|]. by rewrite IH.
Qed.

(** A frame is the bytes of the JSON text and one zero byte. *)
Lemma frame_eq message :
  frame h message = Buffer_from (JSON_stringify h message) ++ [x00].
Proof. unfold frame, Buffer_from, NUL. by rewrite list_byte_of_string_app. Qed.

Lemma Buffer_from_inj s1 s2 : Buffer_from s1 = Buffer_from s2 -> s1 = s2.
Proof.
  unfold Buffer_from. intros H.
  rewrite <- (String.string_of_list_byte_of_string s1),
          <- (String.string_of_list_byte_of_string s2).
  by rewrite H.
Qed.

(** Two sequences of bytes that are cut at their first zero byte. *)
Lemma cut_at_zero (l1 l2 r1 r2 : Buffer) :
  x00 ∉ l1 -> x00 ∉ l2 ->
  l1 ++ x00 :: r1 = l2 ++ x00 :: r2 -> l1 = l2 /\ r1 = r2.
Proof.
  revert l2. induction l1 as [|a l1 IH]; intros [|b l2] H1 H2 Heq; simpl in Heq.
  - by injection Heq.
  - injection Heq as <- _. exfalso. apply H2. left.
  - injection Heq as -> _. exfalso. apply H1. left.
  - injection Heq as -> Heq.
    apply not_elem_of_cons in H1 as [_ H1].
    apply not_elem_of_cons in H2 as [_ H2].
    destruct (IH l2 H1 H2 Heq) as [-> ->]. done.
Qed.

Lemma frames_inj ms : forall ms',
  (forall m, m ∈ ms ++ ms' -> x00 ∉ Buffer_from (JSON_stringify h m)) ->
  concat (map (frame h) ms) = concat (map (frame h) ms') ->
  map (JSON_stringify h) ms = map (JSON_stringify h) ms'.
Proof.
  induction ms as [|m ms IH]; intros [|m' ms'] Hclean Heq; simpl in *.
  - done.
  - rewrite frame_eq, <- app_assoc in Heq. simpl in Heq.
    by destruct (Buffer_from (JSON_stringify h m')).
  - rewrite frame_eq, <- app_assoc in Heq. simpl in Heq.
    by destruct (Buffer_from (JSON_stringify h m)).
  - rewrite !frame_eq, <- !app_assoc in Heq. simpl in Heq.
    apply cut_at_zero in Heq as [Hm Hrest].
    + apply Buffer_from_inj in Hm. rewrite Hm. f_equal.
      apply IH; [|done].
      intros x Hx. apply Hclean. apply elem_of_app in Hx as [Hx|Hx].
      * right. apply elem_of_app. by left.
      * right. apply elem_of_app. right. by right.
    + apply Hclean. left.
    + apply Hclean. right. apply elem_of_app. right. left.
Qed.

End Framing.

(** X12. The frames of messages, one after the other as [send] and the
    ['drain'] handler write them, can be told apart: when no JSON text
    holds a zero byte, two sequences of messages whose frames make the
    same bytes have the same JSON texts, one by one. Each frame is the
    bytes of the text followed by one zero byte. *)
Theorem X12_frames_can_be_told_apart (h : Host) (ms ms' : list value) :
  (forall m, m ∈ ms ++ ms' -> x00 ∉ Buffer_from (JSON_stringify h m)) ->
  (forall m, frame h m = Buffer_from (JSON_stringify h m) ++ [x00]) /\
  (concat (map (frame h) ms) = concat (map (frame h) ms') ->
   map (JSON_stringify h) ms = map (JSON_stringify h) ms').
Proof.
  intros Hclean. split.
  - intros m. apply frame_eq.
  - by apply frames_inj.
Qed.

(** X12 at two messages of the tests. *)
Lemma X12_witness :
  (forall m, frame Fixture.host m
             = Buffer_from (JSON_stringify Fixture.host m) ++ [x00]) /\
  (concat (map (frame Fixture.host) [String "second"; String "third"])
   = concat (map (frame Fixture.host) [String "second"; String "third"]) ->
   map (JSON_stringify Fixture.host) [String "second"; String "third"]
   = map (JSON_stringify Fixture.host) [String "second"; String "third"]).
Proof.
  apply (X12_frames_can_be_told_apart Fixture.host).
  intros m Hm.
  repeat (apply elem_of_cons in Hm as [-> | Hm];
          [vm_compute; intros H; repeat (apply elem_of_cons in H as [H | H];
                                          [discriminate|]);
           by apply elem_of_nil in H |]).
  by apply elem_of_nil in Hm.
Defined.

End TcpMore.


(* ===================================================================== *)
(** ** The client: the message and the way through the transport         *)
(* ===================================================================== *)

Module GelfMore.
Import Gelf Objects Cases.

(** *** The loop over the additional fields *)



(** The assignment in the loop: it leaves every other name alone, and
    under any name but [__proto__] the value is there afterwards. *)
Lemma assign_field_other message name v p :
  p <> name -> get (assign_field message name v) p = get message p.
Proof.
  intros Hp. unfold assign_field.
  destruct (String.eqb name "__proto__"); [done|]. by apply get_set_ne.
Qed.


Lemma assign_field_keys message name v :
  (assign_field message name v).*1
  = if decide (name = "__proto__" \/ name ∈ message.*1)
    then message.*1 else message.*1 ++ [name].
Proof.
  unfold assign_field. destruct (String.eqb_spec name "__proto__") as [->|Hname].
  - destruct (decide _) as [|Hno]; [done|]. exfalso. apply Hno. by left.
  - rewrite set_keys.
    destruct (decide (name ∈ message.*1)) as [Hin|Hin];
      destruct (decide _) as [Hyes|Hno]; try done.
    + exfalso. apply Hno. by right.
    + by destruct Hyes.
Qed.

(** The loop leaves alone every property whose name it does not
    write. *)
Lemma add_fields_other af keys message p :
  (forall key, key ∈ keys -> taken key = true -> p <> "_" +:+ key) ->
  get (add_fields af keys message) p = get message p.
Proof.
  revert message. induction keys as [|k keys IH]; intros message Hp; simpl; [done|].
  rewrite IH.
  - fold (taken k). destruct (taken k) eqn:Hk; [|done].
    apply assign_field_other. apply Hp; [left|done].
  - intros key Hkey. apply Hp. by right.
Qed.


(** The properties it leaves are those it found, in their places,
    followed by names it wrote, none of which is [__proto__]. *)
Lemma add_fields_keys af keys message :
  exists added,
    (add_fields af keys message).*1 = message.*1 ++ added /\
    forall p, p ∈ added ->
              exists key, key ∈ keys /\ taken key = true /\
                          key <> "_proto__" /\ p = "_" +:+ key.
Proof.
  revert message. induction keys as [|k keys IH]; intros message; simpl.
  { exists []. split; [by rewrite app_nil_r|]. intros p Hp.
    by apply elem_of_nil in Hp. }
  fold (taken k). destruct (taken k) eqn:Hk.
  - destruct (IH (assign_field message ("_" +:+ k) (field_value (get af k))))
      as (added & Heq & Hadded).
    rewrite assign_field_keys in Heq.
    destruct (decide _) as [Hold|Hnew].
    + exists added. split; [done|]. intros p Hp.
      destruct (Hadded p Hp) as (key & ? & ? & ? & ?).
      exists key. split_and!; try done. by right.
    + exists (("_" +:+ k) :: added). rewrite <- app_assoc in Heq.
      split; [done|]. intros p Hp.
      apply elem_of_cons in Hp as [->|Hp].
      * exists k. split_and!; try done; [left|].
        intros ->. apply Hnew. by left.
      * destruct (Hadded p Hp) as (key & ? & ? & ? & ?).
        exists key. split_and!; try done. by right.
  - destruct (IH message) as (added & Heq & Hadded).
    exists added. split; [done|]. intros p Hp.
    destruct (Hadded p Hp) as (key & ? & ? & ? & ?).
    exists key. split_and!; try done. by right.
Qed.

Section Compose.
Variable h : Host.
Variables (c : GelfClient) (short full additionalFields timestamp level : value).

(** The six fields before the loop. *)
Let message : list (string * value) :=
  [("version", String (version c));
   ("host", String (host c));
   ("short_message",
    match short with
    | NativeError name message stack =>
      Object [("name", String name); ("message", String message);
              ("stack", String stack)]
    | _ => short
    end);
   ("full_message", full);
   ("level",
    if isSafeInteger level
       && match level with
          | Number n => negb (number_ltb n 0) && number_leb n 7
          | _ => false
          end
    then level else Number (Int 1));
   ("timestamp", if isFinite timestamp then timestamp
                 else Number (Date_now h))].

Lemma compose_eq :
  compose h c short full additionalFields timestamp level
  = Object (add_fields (own_props additionalFields)
                       (Object_keys additionalFields) message).
Proof.
  unfold compose. fold message.
  destruct additionalFields; simpl; reflexivity.
Qed.

Lemma compose_standard p :
  p ∈ standard_fields ->
  get (own_props (compose h c short full additionalFields timestamp level)) p
  = get message p.
Proof.
  intros Hp. rewrite compose_eq. simpl. apply add_fields_other.
  intros key _ _ ->. unfold standard_fields in Hp.
  repeat (apply elem_of_cons in Hp as [Hp|Hp]; [discriminate|]).
  by apply elem_of_nil in Hp.
Qed.

Lemma level_field :
  exists z,
    get message "level" = Number (Int z) /\ 0 <= z <= 7 /\
    (forall n, level = Number (Int n) -> 0 <= n <= 7 -> z = n) /\
    ((forall n, level = Number (Int n) -> ~ 0 <= n <= 7) -> z = 1).
Proof.
  unfold message. simpl.
  destruct level as [| |b|[n|q| |neg]|s|? ? ?|props]; simpl.
  4: { destruct (Z.leb_spec (Z.abs n) (2 ^ 53 - 1)); simpl;
         [destruct (Z.ltb_spec n 0); simpl; [|destruct (Z.leb_spec n 7); simpl]|].
       2: { exists n. split_and!; [done|lia|lia|by intros n' [= <-]|].
            intros Hno. exfalso. apply (Hno n); [done|lia]. }
       all: exists 1; split_and!; [done|lia|lia| |done]; intros n' [= <-] ?; lia. }
  all: exists 1; split_and!; [done|lia|lia|congruence|done].
Qed.

End Compose.

(** X13. The message a log function composes always has the six
    standard fields, first and in the order [version], [host],
    [short_message], [full_message], [level], [timestamp], and no
    additional field can take the place of one of them: [version] and
    [host] are those of the client, [full_message] is the argument as
    it was passed, [short_message] is the argument, or the [name],
    [message] and [stack] of an error, and [timestamp] is the argument
    when it is a finite number and the time of the call otherwise. *)
Theorem X13_standard_fields_come_first
        (h : Host) (c : GelfClient)
        (short full additionalFields timestamp level : value) :
  exists props,
    compose h c short full additionalFields timestamp level = Object props /\
    take 6 props.*1 = standard_fields /\
    get props "version" = String (version c) /\
    get props "host" = String (host c) /\
    get props "full_message" = full /\
    get props "short_message"
    = match short with
      | NativeError name message stack =>
        Object [("name", String name); ("message", String message);
                ("stack", String stack)]
      | _ => short
      end /\
    get props "timestamp"
    = if isFinite timestamp then timestamp else Number (Date_now h).
Proof.
  eexists. split; [apply compose_eq|].
  split.
  { destruct (add_fields_keys (own_props additionalFields)
                (Object_keys additionalFields)
                [("version", String (version c));
                 ("host", String (host c));
                 ("short_message",
                  match short with
                  | NativeError name message stack =>
                    Object [("name", String name); ("message", String message);
                            ("stack", String stack)]
                  | _ => short
                  end);
                 ("full_message", full);
                 ("level",
                  if isSafeInteger level
                     && match level with
                        | Number n => negb (number_ltb n 0) && number_leb n 7
                        | _ => false
                        end
                  then level else Number (Int 1));
                 ("timestamp", if isFinite timestamp then timestamp
                               else Number (Date_now h))])
      as (added & -> & _).
    reflexivity. }
  pose proof (compose_standard h c short full additionalFields timestamp level)
    as Hstd.
  rewrite compose_eq in Hstd. simpl in Hstd.
  split_and!; (rewrite Hstd; [reflexivity|]); unfold standard_fields;
    repeat first [by left | right].
Qed.

(** X14. The [level] of a composed message is always an integer from 0
    to 7: the level passed when it is such an integer, and 1 for every
    other value, a number out of this range, a fraction, [NaN] or a
    value that is not a number. *)
Theorem X14_level_is_a_syslog_severity
        (h : Host) (c : GelfClient)
        (short full additionalFields timestamp level : value) :
  exists z,
    get (own_props (compose h c short full additionalFields timestamp level))
        "level" = Number (Int z) /\
    0 <= z <= 7 /\
    (forall n, level = Number (Int n) -> 0 <= n <= 7 -> z = n) /\
    ((forall n, level = Number (Int n) -> ~ 0 <= n <= 7) -> z = 1).
Proof.
  rewrite compose_standard; [|unfold standard_fields; repeat first [by left | right]].
  apply level_field.
Qed.


(** *** The constructor *)

(** X16. The constructor of the client returns a client exactly for the
    options with a [host] and a [version] that are strings when
    present, with the transport ['udp'] or none, and that the
    constructor of [UdpTransport] accepts: the client has the host of
    the options, or the name of the machine, the version of the
    options, or 1.1, and a transport that is not connected and has done
    nothing. What the constructor of the transport throws, the
    constructor of the client throws; so it throws a [TypeError] when
    it is called without options, which name no [graylogHost]. *)
Theorem X16_client_constructor (h : Host) (props : list (string * value))
        (w : World) :
  (constructor h (Object props) = Normal w <->
   exists name v t,
     get_default props "host" (String (hostname h)) = String name /\
     get_default props "version" (String kGelfVersion) = String v /\
     get_default props "transport" (String "udp") = String "udp" /\
     Udp.constructor props (Some (Ref 0)) = Normal t /\
     w = {| this := {| host := name; version := v; kTransport := Some (Ref 0) |};
            udp := Udp.new t; unhandled := [] |}) /\
  (forall name v e,
     get_default props "host" (String (hostname h)) = String name ->
     get_default props "version" (String kGelfVersion) = String v ->
     get_default props "transport" (String "udp") = String "udp" ->
     Udp.constructor props (Some (Ref 0)) = Throw e ->
     constructor h (Object props) = Throw e) /\
  constructor h Undefined = Throw (TypeError "graylogHost must be a string").
Proof.
  split_and!.
  - split.
    + unfold constructor. simpl.
      destruct (get_default props "host" _) as [| | | |name| |]; try discriminate.
      destruct (get_default props "version" _) as [| | | |v| |]; try discriminate.
      destruct (get_default props "transport" _) as [| | | |tr| |]; try discriminate.
      unfold supportedTransports.
      destruct (String.eqb_spec tr "udp") as [->|]; simpl; [|discriminate].
      destruct (Udp.constructor props (Some (Ref 0))) as [t|]; simpl;
        [|discriminate].
      intros [= <-]. by exists name, v, t.
    + intros (name & v & t & Hname & Hv & Htr & Ht & ->).
      unfold constructor. simpl. rewrite Hname, Hv, Htr. simpl. by rewrite Ht.
  - intros name v e Hname Hv Htr He.
    unfold constructor. simpl. rewrite Hname, Hv, Htr. simpl. by rewrite He.
  - reflexivity.
Qed.

(** *** Logging through the transport *)





End GelfMore.
